(** * Substitution sets of the price-per-unit analysis

    A shallow embedding of
    [frontend/price_per_unit/substitution_sets.py] and the properties of its
    four components: the code classifier
    ([generic_equivalent_for_bnf_code]), the equivalence merger
    ([groups_from_pairs]), the swap table loader
    ([read_formulation_swaps_file], [get_formulation_swaps]) and the
    substitution set builder ([get_substitution_sets_from_bnf_codes]).

    Conventions of the embedding:
    - a Python [str] is a [string]; every character stands for one code
      point below 256, ordered by its number, as Python orders them;
    - a [dict] whose iteration order the program never observes is a
      [gmap]; a [dict] the program iterates over is an insertion-ordered
      association list ([odict]);
    - a [list] that is mutated through several references lives in an
      explicit heap, and a reference is its address;
    - a raised exception is the [Raise] branch of [result]. *)

From Stdlib Require Import Ascii String.
From stdpp Require Import base option list strings sorting relations gmap.

(** ** Exceptions *)

Inductive exn : Type :=
  | AssertionError
  | IndexError.

Inductive result (A : Type) : Type :=
  | Ok (a : A)
  | Raise (e : exn).

Arguments Ok {A} a.
Arguments Raise {A} e.

Definition bind {A B : Type} (m : result A) (f : A → result B) : result B :=
  match m with
  | Ok a => f a
  | Raise e => Raise e
  end.

Notation "x <~ m ;; k" := (bind m (fun x => k))
  (at level 100, m at next level, right associativity).

(** [for x in xs: body], where the body may raise. *)
Fixpoint for_each {S A : Type} (body : S → A → result S) (s : S) (xs : list A)
    : result S :=
  match xs with
  | [] => Ok s
  | x :: xs' => s' <~ body s x;; for_each body s' xs'
  end.

(** [assert b] *)
Definition assert (b : bool) : result unit :=
  if b then Ok () else Raise AssertionError.

(** ** Strings *)

(** [s[i:j]] for [0 <= i <= j]: slicing clamps to the length of [s]. *)
Definition slice (i j : nat) (s : string) : string := substring i (j - i) s.

(** [str.isspace] on one character. *)
Definition isspace (c : ascii) : bool :=
  let n := nat_of_ascii c in
  bool_decide (9 ≤ n ≤ 13) || bool_decide (28 ≤ n ≤ 32)
  || bool_decide (n = 133) || bool_decide (n = 160).

Fixpoint lstrip (s : string) : string :=
  match s with
  | String c s' => if isspace c then lstrip s' else s
  | EmptyString => EmptyString
  end.

(** [s.strip()] *)
Definition strip (s : string) : string :=
  String.rev (lstrip (String.rev (lstrip s))).

(** [sorted(xs)] on strings. Python's sort is a stable merge sort; on a total
    order in which equal keys are equal values its result is the only sorted
    permutation (see [sorted_unique]). *)
Definition sorted (xs : list string) : list string := merge_sort String.le xs.

(** [sep.join(xs)] *)
Definition join (sep : string) (xs : list string) : string := String.concat sep xs.

(** ** Regular expressions: the fragment of [re] the module uses *)

Inductive regex : Type :=
  | Empty                     (* matches nothing *)
  | Eps                       (* matches the empty string *)
  | Lit (c : ascii)           (* a literal character *)
  | Dot                       (* [.]: any character but a newline *)
  | Seq (r1 r2 : regex)
  | Alt (r1 r2 : regex)
  | Star (r : regex).

Definition newline : ascii := "010"%char.

(** The strings a pattern matches in full. *)
Inductive lang : regex → string → Prop :=
  | lang_eps : lang Eps ""
  | lang_lit c : lang (Lit c) (String c "")
  | lang_dot c : c ≠ newline → lang Dot (String c "")
  | lang_seq r1 r2 s1 s2 : lang r1 s1 → lang r2 s2 → lang (Seq r1 r2) (s1 +:+ s2)
  | lang_alt_l r1 r2 s : lang r1 s → lang (Alt r1 r2) s
  | lang_alt_r r1 r2 s : lang r2 s → lang (Alt r1 r2) s
  | lang_star_nil r : lang (Star r) ""
  | lang_star_app r s1 s2 :
      lang r s1 → lang (Star r) s2 → lang (Star r) (s1 +:+ s2).

Fixpoint nullable (r : regex) : bool :=
  match r with
  | Empty | Lit _ | Dot => false
  | Eps | Star _ => true
  | Seq r1 r2 => nullable r1 && nullable r2
  | Alt r1 r2 => nullable r1 || nullable r2
  end.

(** What is left of [r] after reading [c]. *)
Fixpoint deriv (c : ascii) (r : regex) : regex :=
  match r with
  | Empty | Eps => Empty
  | Lit c' => if decide (c = c') then Eps else Empty
  | Dot => if decide (c = newline) then Empty else Eps
  | Seq r1 r2 =>
      if nullable r1 then Alt (Seq (deriv c r1) r2) (deriv c r2)
      else Seq (deriv c r1) r2
  | Alt r1 r2 => Alt (deriv c r1) (deriv c r2)
  | Star r1 => Seq (deriv c r1) (Star r1)
  end.

(** [pattern.match(s) is not None]: the pattern matches at the start of [s]
    (some prefix of [s] is in its language); the rest of [s] is free. *)
Fixpoint re_match (r : regex) (s : string) : bool :=
  nullable r ||
  match s with
  | EmptyString => false
  | String c s' => re_match (deriv c r) s'
  end.

(** A run of pattern characters, [.] being the wildcard. *)
Fixpoint chars (p : string) : regex :=
  match p with
  | EmptyString => Eps
  | String c p' => Seq (if decide (c = "."%char) then Dot else Lit c) (chars p')
  end.

(** A fixed-width pattern matches exactly the strings that agree with it
    character by character, a [.] standing for any character but a newline. *)
Fixpoint agrees (p s : string) : Prop :=
  match p, s with
  | EmptyString, EmptyString => True
  | String a p', String c s' =>
      (if decide (a = "."%char) then c ≠ newline else c = a) ∧ agrees p' s'
  | _, _ => False
  end.

Definition alternatives (rs : list regex) : regex := foldr Alt Empty rs.

(** BNF codes which cannot be mapped to generics; the pattern is compiled with
    [re.VERBOSE], which drops the white space and the comments. *)
Definition EXCLUSIONS_RE : regex :=
  alternatives [
    chars "0302000C0....BE";                (* issue #10 *)
    chars "0302000C0....BF";                (* issue #10 *)
    chars "0302000C0....BH";                (* issue #10 *)
    chars "0302000C0....BG";                (* issue #10 *)
    Seq (chars "0904010H0") (Star Dot);     (* issue #9 *)
    chars "1311070S0....AA";                (* issue #9 *)
    chars "1311020L0....BS";                (* issue #9 *)
    chars "0301020S0....AA";                (* issue #12 *)
    chars "190700000BBCJA0";                (* issue #12 *)
    chars "0604011L0BGAAAH";                (* issue #12 *)
    chars "1502010J0....BY";                (* issue #12 *)
    chars "1201010F0AAAAAA";                (* issue #12 *)
    chars "0107010S0AAAGAG";                (* issue #12 *)
    chars "060016000BBAAA0";                (* issue #14 *)
    chars "190201000AABJBJ";                (* issue #14 *)
    chars "190201000AABKBK";                (* issue #14 *)
    chars "190201000AABLBL";                (* issue #14 *)
    chars "190201000AABMBM";                (* issue #14 *)
    chars "190201000AABNBN";                (* issue #14 *)
    chars "190202000AAADAD"                 (* issue #14 *)
  ].

(** The fixed-width alternatives of [EXCLUSIONS_RE], in its order. *)
Definition fixed_width_exclusions : list string :=
  [ "0302000C0....BE"; "0302000C0....BF"; "0302000C0....BH"; "0302000C0....BG";
    "1311070S0....AA"; "1311020L0....BS"; "0301020S0....AA"; "190700000BBCJA0";
    "0604011L0BGAAAH"; "1502010J0....BY"; "1201010F0AAAAAA"; "0107010S0AAAGAG";
    "060016000BBAAA0"; "190201000AABJBJ"; "190201000AABKBK"; "190201000AABLBL";
    "190201000AABMBM"; "190201000AABNBN"; "190202000AAADAD" ].

(** [r] matches no string at all. *)
Fixpoint dead (r : regex) : bool :=
  match r with
  | Empty => true
  | Seq r1 r2 => dead r1 || dead r2
  | Alt r1 r2 => dead r1 && dead r2
  | _ => false
  end.

(** What is left of [r] after reading [p]. *)
Fixpoint derivs (p : string) (r : regex) : regex :=
  match p with
  | EmptyString => r
  | String c p' => derivs p' (deriv c r)
  end.

(** [r] matches a proper prefix of [p]. *)
Fixpoint prefix_nullable (p : string) (r : regex) : bool :=
  match p with
  | EmptyString => false
  | String c p' => nullable r || prefix_nullable p' (deriv c r)
  end.

(** ** The code classifier *)

(** BNF code prefixes where all presentations within the sub-paragraph can be
    considered substitutable. *)
Definition GENERIC_SUB_PARAGRAPHS : gmap string string :=
  {[ "0601060U0" := "Urine Testing Reagents";
     "0601060D0" := "Glucose Blood Testing Reagents" ]}.

(** [k in d] *)
Definition contains (k : string) (d : gmap string string) : bool :=
  bool_decide (is_Some (d !! k)).

(** The generic equivalent BNF code for a supplied BNF code, or [None] if
    there is no such equivalent. *)
Definition generic_equivalent_for_bnf_code (bnf_code : string) : option string :=
  if negb (String.length bnf_code =? 15)%nat then None
  else if re_match EXCLUSIONS_RE bnf_code then None
  else
    let sub_paragraph_and_chemical := slice 0 9 bnf_code in
    let generic_strength_and_formulation := slice 13 15 bnf_code in
    let has_generic_equivalent :=
      negb (bool_decide (generic_strength_and_formulation = "A0")) in
    if has_generic_equivalent
       || contains sub_paragraph_and_chemical GENERIC_SUB_PARAGRAPHS
    then Some (sub_paragraph_and_chemical +:+ "AA"
               +:+ generic_strength_and_formulation
               +:+ generic_strength_and_formulation)
    else None.

(** ** Insertion-ordered dictionaries

    A [dict] iterates over its keys in the order of their first insertion;
    assigning to a key that is present keeps its place. *)

Section odict.
Context {K V : Type} `{EqDecision K}.

Definition odict : Type := list (K * V).

(** [d.get(k)] *)
Fixpoint odict_get (k : K) (d : odict) : option V :=
  match d with
  | [] => None
  | (k', v) :: d' => if decide (k = k') then Some v else odict_get k d'
  end.

(** [d[k] = v] *)
Fixpoint odict_set (k : K) (v : V) (d : odict) : odict :=
  match d with
  | [] => [(k, v)]
  | (k', v') :: d' =>
      if decide (k = k') then (k', v) :: d' else (k', v') :: odict_set k v d'
  end.

(** [d.keys()] *)
Definition odict_keys (d : odict) : list K := d.*1.
End odict.

Arguments odict : clear implicits.

(** ** The equivalence merger *)

Section groups_from_pairs.
Context {K : Type} `{EqDecision K}.

(** A group is a list object: [groups] holds its address, [heap] its
    elements. Addresses are handed out by [alloc] only, so none dangles. *)
Definition loc : Type := nat.

Record store : Type := Store {
  groups : odict K loc;
  heap : list (list K);
}.

(** Evaluating a list display [[x]] creates a new object. *)
Definition alloc (v : list K) (h : list (list K)) : loc * list (list K) :=
  (length h, h ++ [v]).

Definition deref (h : list (list K)) (l : loc) : list K := default [] (h !! l).

(** The body of the first loop, for the pair [(element, other_element)]. *)
Definition merge_pair (s : store) (pair : K * K) : store :=
  let '(element, other_element) := pair in
  (* group = groups.setdefault(element, [element]) *)
  let '(fresh, heap1) := alloc [element] (heap s) in
  let '(group, groups1) :=
    match odict_get element (groups s) with
    | Some l => (l, groups s)
    | None => (fresh, odict_set element fresh (groups s))
    end in
  (* other_group = groups.get(other_element, [other_element]) *)
  let '(other_fresh, heap2) := alloc [other_element] heap1 in
  let other_group := default other_fresh (odict_get other_element groups1) in
  (* if other_group is not group: *)
  if decide (other_group = group) then Store groups1 heap2
  else
    (* group.extend(other_group) *)
    let members := deref heap2 other_group in
    let heap3 := <[group := deref heap2 group ++ members]> heap2 in
    (* for member in other_group: groups[member] = group *)
    let groups2 :=
      foldl (fun g member => odict_set member group g) groups1 members in
    Store groups2 heap3.

Definition merge_pairs (pairs : list (K * K)) : store :=
  foldl merge_pair (Store [] []) pairs.

(** The body of the second loop: the groups it yields for one item. *)
Definition yield_group (h : list (list K)) (item : K * loc)
    : result (list (list K)) :=
  let '(element, group) := item in
  match deref h group with
  | [] => Raise IndexError                      (* group[0] *)
  | first :: _ =>
      if decide (element = first) then Ok [deref h group] else Ok []
  end.

(** Accepts a list of pairs and combines any overlapping pairs into groups.
    The generator runs its first loop to the end before it yields. *)
Definition groups_from_pairs (pairs : list (K * K)) : result (list (list K)) :=
  let s := merge_pairs pairs in
  for_each (fun out item => gs <~ yield_group (heap s) item;; Ok (out ++ gs))
           [] (groups s).
End groups_from_pairs.

Arguments store : clear implicits.

(** ** The swap table loader *)

(** A row of the swaps file as [csv.DictReader] hands it over, with the five
    columns the loader reads. *)
Record Row : Type := {
  Code : string;
  Alternative_code : string;
  Formulation : string;
  Alternative_formulation : string;
  Really_equivalent : string;
}.

(** The body of the loop over the rows; the state is
    [(code_pairs, formulations)]. *)
Definition read_row (st : list (string * string) * gmap string string)
    (row : Row) : result (list (string * string) * gmap string string) :=
  let '(code_pairs, formulations) := st in
  if negb (bool_decide (strip (Really_equivalent row) = "Y")) then Ok st
  else
    let code := strip (Code row) in
    let alternative_code := strip (Alternative_code row) in
    (* Check that all codes in the substitutions table are generics *)
    _ <~ assert (bool_decide (Some code = generic_equivalent_for_bnf_code code));;
    _ <~ assert (bool_decide (Some alternative_code
                             = generic_equivalent_for_bnf_code alternative_code));;
    _ <~ assert (negb (bool_decide (code = alternative_code)));;
    let code_pairs := code_pairs ++ [(code, alternative_code)] in
    let formulations := <[code := strip (Formulation row)]> formulations in
    let formulations :=
      <[alternative_code := strip (Alternative_formulation row)]> formulations in
    Ok (code_pairs, formulations).

(** Truthiness of what [formulations.get] returns: [None] and the empty
    string are false. *)
Definition truthy_label (f : option string) : option string :=
  match f with
  | Some s => if bool_decide (s = "") then None else Some s
  | None => None
  end.

(** [[f for f in set(map(formulations.get, code_group)) if f]]. The order in
    which a set is iterated is not specified; its consumer sorts. *)
Definition formulations_for_group (formulations : gmap string string)
    (code_group : list string) : list string :=
  let labels : gset (option string) :=
    list_to_set ((fun code => formulations !! code) <$> code_group) in
  omap truthy_label (elements labels).

(** Reads the rows of a formulation swaps file and yields groups of
    substitutable generic presentations as pairs
    [(list of generic BNF codes, list of formulations)]. *)
Definition read_formulation_swaps_file (data : list Row)
    : result (list (list string * list string)) :=
  st <~ for_each read_row ([], ∅) data;;
  let '(code_pairs, formulations) := st in
  code_groups <~ groups_from_pairs code_pairs;;
  Ok ((fun code_group =>
         (code_group, formulations_for_group formulations code_group))
      <$> code_groups).

(** The body of the loop of [get_formulation_swaps]; the state is
    [(swaps, swap_descriptions)]. *)
Definition add_group (st : gmap string string * gmap string string)
    (item : list string * list string)
    : result (gmap string string * gmap string string) :=
  let '(swaps, swap_descriptions) := st in
  let '(codes, formulations) := item in
  (* We use the lexically smallest code from a group of equivalent generics
     to represent the group *)
  match sorted codes with
  | [] => Raise IndexError                        (* sorted(codes)[0] *)
  | primary_code :: _ =>
      let swaps := foldl (fun sw code => <[code := primary_code]> sw) swaps codes in
      let swap_descriptions :=
        if (1 <? length formulations)%nat
        then <[primary_code := join " / " (sorted formulations)]> swap_descriptions
        else swap_descriptions in
      Ok (swaps, swap_descriptions)
  end.

(** Returns the pair [(swaps, swap_descriptions)] for the rows of a swaps
    file. *)
Definition get_formulation_swaps (data : list Row)
    : result (gmap string string * gmap string string) :=
  code_groups <~ read_formulation_swaps_file data;;
  for_each add_group (∅, ∅) code_groups.

(** ** The substitution set builder *)

Record SubstitutionSet : Type := {
  id : string;
  presentations : list string;
  name : option string;
  formulation_swaps : option string;
}.

(** [swaps.get(generic_code, generic_code)] *)
Definition remap (swaps : gmap string string) (generic_code : string) : string :=
  default generic_code (swaps !! generic_code).

(** [presentation_sets[generic_code].append(bnf_code)] on a
    [defaultdict(list)]. *)
Definition append_presentation (generic_code bnf_code : string)
    (presentation_sets : odict string (list string)) : odict string (list string) :=
  let presentations := default [] (odict_get generic_code presentation_sets) in
  odict_set generic_code (presentations ++ [bnf_code]) presentation_sets.

(** The body of the loop over [bnf_codes]. A string is true when it is not
    empty. *)
Definition add_bnf_code (swaps : gmap string string)
    (presentation_sets : odict string (list string)) (bnf_code : string)
    : odict string (list string) :=
  match generic_equivalent_for_bnf_code bnf_code with
  | Some generic_code =>
      if bool_decide (generic_code = "") then presentation_sets
      else append_presentation (remap swaps generic_code) bnf_code presentation_sets
  | None => presentation_sets
  end.

Section builder.
(** [Presentation.names_for_bnf_codes], the name lookup of the storage
    layer, and the rows of [FORMULATION_SWAPS_FILE]. *)
Variable names_for_bnf_codes : list string → gmap string string.
Variable formulation_swaps_rows : list Row.

Definition get_names_for_bnf_codes (bnf_codes : list string)
    : gmap string string :=
  let names := names_for_bnf_codes bnf_codes in
  (* Add in names for our invented BNF codes which represent their entire
     BNF sub-paragraph *)
  map_fold (fun sub_para name names => <[sub_para +:+ "AAA0A0" := name]> names)
           names GENERIC_SUB_PARAGRAPHS.

(** Given a list of BNF codes return a list of SubstitutionSets over those
    BNF codes. *)
Definition get_substitution_sets_from_bnf_codes (bnf_codes : list string)
    : result (list SubstitutionSet) :=
  st <~ get_formulation_swaps formulation_swaps_rows;;
  let '(swaps, swap_descriptions) := st in
  let presentation_sets := foldl (add_bnf_code swaps) [] bnf_codes in
  let names := get_names_for_bnf_codes (odict_keys presentation_sets) in
  Ok ((fun '(code, presentations) =>
         {| id := code;
            name := Some (default "unknown" (names !! code));
            presentations := sorted presentations;
            formulation_swaps := swap_descriptions !! code |})
      <$> filter
            (* There's no point in a substitution set with only one member *)
            (fun item => 1 < length item.2)
            presentation_sets).
End builder.

(** ** The table of all substitution sets *)

Section get_substitution_sets.
(** [Presentation.names_for_bnf_codes], the rows of [FORMULATION_SWAPS_FILE],
    and the [bnf_code] column of the [presentation] table as the query returns
    it. *)
Variable names_for_bnf_codes : list string → gmap string string.
Variable formulation_swaps_rows : list Row.
Variable presentation_bnf_codes : list string.

(** The body of [get_substitution_sets], which [memoize] runs on the first
    call: the sets over all BNF codes of the database, keyed by their id. *)
Definition get_substitution_sets : result (gmap string SubstitutionSet) :=
  let bnf_codes := presentation_bnf_codes in
  substitution_sets <~
    get_substitution_sets_from_bnf_codes names_for_bnf_codes
      formulation_swaps_rows bnf_codes;;
  Ok (foldl (fun d s => <[id s := s]> d) ∅ substitution_sets).
End get_substitution_sets.


(** ** What the builder files under a key *)

(** The key under which the builder files a code, if it files it. *)
Definition grouping_key (swaps : gmap string string) (bnf_code : string)
    : option string :=
  match generic_equivalent_for_bnf_code bnf_code with
  | Some generic_code =>
      if bool_decide (generic_code = "") then None
      else Some (remap swaps generic_code)
  | None => None
  end.

(** How often [c] occurs in [l]. *)
Definition occurrences (c : string) (l : list string) : nat :=
  length (filter (fun x => x = c) l).

(** The codes of [bnf_codes] filed under [k], in their order. *)
Definition filed_under (swaps : gmap string string) (k : string)
    (bnf_codes : list string) : list string :=
  filter (fun c => grouping_key swaps c = Some k) bnf_codes.

(** ** Graphs, and the invariant of the merger's store *)

Section graph.
Context {K : Type}.
Implicit Types (pairs : list (K * K)) (g : list K).

(** The undirected graph whose edges are the pairs. *)
Definition edge pairs : relation K := fun a b => (a, b) ∈ pairs.

Definition vertex pairs (x : K) : Prop := ∃ y, (x, y) ∈ pairs ∨ (y, x) ∈ pairs.

Definition connected pairs : relation K := rtsc (edge pairs).

(** [g] lists a connected component: vertices only, and with a vertex
    everything connected to it and nothing else. *)
Definition component pairs g : Prop :=
  g ≠ [] ∧ ∀ x, x ∈ g → vertex pairs x ∧ ∀ y, y ∈ g ↔ connected pairs x y.

Definition same_set g g' : Prop := ∀ x, x ∈ g ↔ x ∈ g'.

(** Two lists of groups are the same set of sets. *)
Definition same_partition (out out' : list (list K)) : Prop :=
  (∀ g, g ∈ out → ∃ g', g' ∈ out' ∧ same_set g g')
  ∧ (∀ g', g' ∈ out' → ∃ g, g ∈ out ∧ same_set g g').

(** Two vertices joined by a path. *)
Definition linked pairs (x y : K) : Prop :=
  vertex pairs x ∧ vertex pairs y ∧ connected pairs x y.

(** The groups yielded are components, every vertex is in one of them, and
    no element is yielded twice. *)
Definition components_of pairs (out : list (list K)) : Prop :=
  (∀ g, g ∈ out → component pairs g)
  ∧ (∀ x, vertex pairs x → ∃ g, g ∈ out ∧ x ∈ g)
  ∧ NoDup (mjoin out).
End graph.

Section store.
Context {K : Type} `{EqDecision K}.

(** [groups.get(x)] *)
Definition owner (s : store K) (x : K) : option loc := odict_get x (groups s).

(** The group [x] belongs to: the one [groups] records, or else the
    singleton that the loop creates for it. *)
Definition group_of (s : store K) (x : K) : list K :=
  match owner s x with
  | Some l => deref (heap s) l
  | None => [x]
  end.

(** [x] and [y] are in one recorded group. *)
Definition same (s : store K) (x y : K) : Prop :=
  ∃ l, owner s x = Some l ∧ owner s y = Some l.

(** The test [other_group is group] for the pair [(a, b)]. *)
Definition same_group (s : store K) (a b : K) : Prop := a = b ∨ same s a b.

#[global] Instance same_dec s x y : Decision (same s x y).
Proof.
  unfold same. destruct (owner s x) as [l|] eqn:Hx.
  - destruct (decide (owner s y = Some l)) as [Hy|Hy].
    + left. eauto.
    + right. intros (l' & [= <-] & ?). done.
  - right. by intros (l' & ? & _).
Defined.

#[global] Instance same_group_dec s a b : Decision (same_group s a b).
Proof. unfold same_group. apply _. Defined.

Record store_wf (s : store K) : Prop := {
  wf_keys : NoDup (odict_keys (groups s));
  wf_member x l : owner s x = Some l → x ∈ deref (heap s) l;
  wf_owner x l y : owner s x = Some l → y ∈ deref (heap s) l → owner s y = Some l;
  wf_nodup x l : owner s x = Some l → NoDup (deref (heap s) l);
}.

(** What the second loop yields from the items [its] of [groups]. *)
Definition yielded_from (h : list (list K)) (its : list (K * loc)) : list (list K) :=
  omap (fun '(x, l) => if decide (head (deref h l) = Some x)
                       then Some (deref h l) else None) its.
End store.

(** ** The rows of the swaps file *)

(** The row is considered: its flag, trimmed, is exactly [Y]. *)
Definition accepted (row : Row) : Prop := strip (Really_equivalent row) = "Y".

#[global] Instance accepted_dec row : Decision (accepted row).
Proof. unfold accepted. apply _. Defined.

(** The code classifies to itself: it is a generic code already. *)
Definition self_generic (code : string) : Prop :=
  generic_equivalent_for_bnf_code code = Some code.

(** The three assertions on a row that is considered. *)
Definition well_formed (row : Row) : Prop :=
  self_generic (strip (Code row))
  ∧ self_generic (strip (Alternative_code row))
  ∧ strip (Code row) ≠ strip (Alternative_code row).

#[global] Instance well_formed_dec row : Decision (well_formed row).
Proof. unfold well_formed, self_generic. apply _. Defined.

(** The pair a row contributes to [code_pairs]. *)
Definition pair_of (row : Row) : string * string :=
  (strip (Code row), strip (Alternative_code row)).

(** The two assignments a row makes to [formulations]. *)
Definition label_row (formulations : gmap string string) (row : Row)
    : gmap string string :=
  <[strip (Alternative_code row) := strip (Alternative_formulation row)]>
    (<[strip (Code row) := strip (Formulation row)]> formulations).

(** [code_pairs] and [formulations] after the loop over rows that pass. *)
Definition code_pairs_of (data : list Row) : list (string * string) :=
  pair_of <$> filter accepted data.

Definition formulations_of (data : list Row) : gmap string string :=
  foldl label_row ∅ (filter accepted data).

(** The row attaches the label [label] to the code [m]. *)
Definition labels (row : Row) (m label : string) : Prop :=
  (strip (Code row) = m ∧ label = strip (Formulation row))
  ∨ (strip (Alternative_code row) = m ∧ label = strip (Alternative_formulation row)).

(** Some accepted row attaches [label] to [m]. *)
Definition any_label (data : list Row) (m label : string) : Prop :=
  ∃ row, row ∈ data ∧ accepted row ∧ labels row m label.

(** The last row of [rows] that mentions [m] attaches [label] to it. *)
Definition last_mention (rows : list Row) (m label : string) : Prop :=
  ∃ before row after,
    rows = before ++ row :: after
    ∧ (∀ row', row' ∈ after →
         strip (Code row') ≠ m ∧ strip (Alternative_code row') ≠ m)
    ∧ ((strip (Alternative_code row) = m
        ∧ label = strip (Alternative_formulation row))
       ∨ (strip (Alternative_code row) ≠ m ∧ strip (Code row) = m
          ∧ label = strip (Formulation row))).

(** The last accepted row that mentions [m] attaches [label] to it (its
    alternative code is assigned after its code). *)
Definition last_label (data : list Row) (m label : string) : Prop :=
  last_mention (filter accepted data) m label.

(** [p] is the smallest code of [codes]. *)
Definition smallest (codes : list string) (p : string) : Prop :=
  p ∈ codes ∧ ∀ m, m ∈ codes → String.le p m.

(** [p] is the smallest code connected to the vertex [m]. *)
Definition primary_of (pairs : list (string * string)) (m p : string) : Prop :=
  vertex pairs m ∧ connected pairs m p
  ∧ ∀ y, connected pairs m y → String.le p y.

(** The description the loop records for a group with these labels. *)
Definition description (forms : list string) : option string :=
  if (1 <? length forms)%nat then Some (join " / " (sorted forms)) else None.

(** A group of codes with its labels, as the loader yields it. *)
Definition group_with (data : list Row) (codes : list string)
    : list string * list string :=
  (codes, formulations_for_group (formulations_of data) codes).

(** ** Rows used in the examples *)

(** Tramadol 100mg tablets and capsules. *)
Definition tramadol_row : Row :=
  {| Code := "040702040AAACAC"; Alternative_code := "040702040AAAHAH";
     Formulation := "Tab"; Alternative_formulation := "Cap";
     Really_equivalent := "Y" |}.

(** Tramadol 200mg tablets and capsules. *)
Definition tramadol_200_row : Row :=
  {| Code := "040702040AAAEAE"; Alternative_code := "040702040AAAJAJ";
     Formulation := "Tab"; Alternative_formulation := "Cap";
     Really_equivalent := "Y" |}.

(** A row that labels the 100mg tablets differently. *)
Definition tramadol_tabs_row : Row :=
  {| Code := "040702040AAACAC"; Alternative_code := "040702040AAAEAE";
     Formulation := "Tabs"; Alternative_formulation := "Cap";
     Really_equivalent := "Y" |}.

(** ** Statements of the specification that the code is compared with *)

(** C3, as the specification states it: the suffix alone decides. *)
Definition suffix_rule : Prop :=
  ∀ c : string, slice 13 15 c ≠ "A0" →
    generic_equivalent_for_bnf_code c
    = Some (slice 0 9 c +:+ "AA" +:+ slice 13 15 c +:+ slice 13 15 c).

(** C8, as the specification states it: when the pair [(a, b)] joins two
    groups, the elements of the smaller one are appended to the larger one. *)
Definition merges_smaller_into_larger (K : Type) `{EqDecision K} : Prop :=
  ∀ (pairs : list (K * K)) (a b : K),
    let s := merge_pairs pairs in
    ¬ same_group s a b →
    group_of (merge_pair s (a, b)) a
    = if (length (group_of s a) <? length (group_of s b))%nat
      then group_of s b ++ group_of s a
      else group_of s a ++ group_of s b.

(** C6, as the specification states it: the labels of a group are all the
    non-empty labels that any accepted row attaches to any of its members. *)
Definition description_from_any_row : Prop :=
  ∀ data groups swaps descs codes forms primary labels,
    read_formulation_swaps_file data = Ok groups →
    get_formulation_swaps data = Ok (swaps, descs) →
    (codes, forms) ∈ groups →
    smallest codes primary →
    NoDup labels →
    (∀ label, label ∈ labels ↔
       label ≠ "" ∧ ∃ m, m ∈ codes ∧ any_label data m label) →
    descs !! primary = description labels.

(** * Properties *)

(** ** Worked examples *)

Example classify_brand :
  generic_equivalent_for_bnf_code "0407020B0BBACAC" = Some "0407020B0AAACAC".
Proof. vm_compute. reflexivity. Qed.

Example classify_generic_a0 :
  generic_equivalent_for_bnf_code "0407020B0AAAAA0" = None.
Proof. vm_compute. reflexivity. Qed.

Example classify_sub_paragraph :
  generic_equivalent_for_bnf_code "0601060D0BBAAA0" = Some "0601060D0AAA0A0".
Proof. vm_compute. reflexivity. Qed.

Example classify_excluded :
  generic_equivalent_for_bnf_code "0302000C0AAABBE" = None.
Proof. vm_compute. reflexivity. Qed.

Example strip_example : strip "  Y " = "Y".
Proof. vm_compute. reflexivity. Qed.

(** The doctest of [groups_from_pairs]. *)
Example groups_from_pairs_doctest :
  groups_from_pairs [(1, 2); (3, 4); (5, 6); (1, 3)] = Ok [[1; 2; 3; 4]; [5; 6]].
Proof. vm_compute. reflexivity. Qed.

Example read_tramadol :
  read_formulation_swaps_file [tramadol_row]
  = Ok [(["040702040AAACAC"; "040702040AAAHAH"], ["Tab"; "Cap"])].
Proof. vm_compute. reflexivity. Qed.

(** ** Strings *)

Lemma string_app_empty_l (s : string) : "" +:+ s = s.
Proof. reflexivity. Qed.

Lemma string_app_cons (c : ascii) (s t : string) : String c s +:+ t = String c (s +:+ t).
Proof. reflexivity. Qed.

Lemma string_app_empty_r (s : string) : s +:+ "" = s.
Proof. induction s as [|c s IH]; [done|]. by rewrite string_app_cons, IH. Qed.

Lemma string_app_eq_empty (s t : string) : s +:+ t = "" → s = "" ∧ t = "".
Proof. destruct s; [done|]. by rewrite string_app_cons. Qed.

Lemma string_app_eq_cons (s t u : string) (c : ascii) :
  s +:+ t = String c u →
  (s = "" ∧ t = String c u) ∨ (∃ s', s = String c s' ∧ u = s' +:+ t).
Proof.
  destruct s as [|c' s]; [by left|].
  rewrite string_app_cons. intros [= -> <-]. right. by exists s.
Qed.

Lemma string_length_app (s t : string) :
  String.length (s +:+ t) = String.length s + String.length t.
Proof. induction s as [|c s IH]; [done|]. rewrite string_app_cons. simpl. by rewrite IH. Qed.

(** ** Matching: [re_match] decides whether a prefix is in the language *)

Lemma nullable_lang (r : regex) : nullable r = true ↔ lang r "".
Proof.
  split.
  - induction r as [| |c| |r1 IH1 r2 IH2|r1 IH1 r2 IH2|r1 IH1];
      simpl; intros Hn; try done.
    + constructor.
    + apply andb_true_iff in Hn as [? ?].
      rewrite <-(string_app_empty_l ""). constructor; auto.
    + apply orb_true_iff in Hn as [?|?]; [apply lang_alt_l|apply lang_alt_r]; auto.
    + constructor.
  - intros Hl. remember "" as s eqn:Hs.
    induction Hl; simpl; subst; try done.
    + apply string_app_eq_empty in Hs as [-> ->]. rewrite IHHl1, IHHl2; done.
    + rewrite IHHl; done.
    + rewrite IHHl, orb_true_r; done.
Qed.

Lemma deriv_sound (c : ascii) (r : regex) (s : string) :
  lang (deriv c r) s → lang r (String c s).
Proof.
  revert s. induction r as [| |c'| |r1 IH1 r2 IH2|r1 IH1 r2 IH2|r1 IH1];
    simpl; intros s Hl.
  - inversion Hl.
  - inversion Hl.
  - case_decide; inversion Hl; subst. constructor.
  - case_decide; inversion Hl; subst. by constructor.
  - destruct (nullable r1) eqn:Hn.
    + inversion Hl as [| | | | ? ? ? Hl'| ? ? ? Hl'| |]; subst.
      * inversion Hl'; subst. rewrite <-string_app_cons. constructor; auto.
      * rewrite <-(string_app_empty_l (String c s)).
        constructor; [by apply nullable_lang|auto].
    + inversion Hl; subst. rewrite <-string_app_cons. constructor; auto.
  - inversion Hl; subst; [apply lang_alt_l|apply lang_alt_r]; auto.
  - inversion Hl; subst. rewrite <-string_app_cons. constructor; auto.
Qed.

Lemma deriv_complete (c : ascii) (r : regex) (s : string) :
  lang r (String c s) → lang (deriv c r) s.
Proof.
  intros Hl. remember (String c s) as t eqn:Ht. revert s Ht.
  induction Hl as [|c'|c' Hc| r1 r2 s1 s2 Hl1 IH1 Hl2 IH2
                   | r1 r2 t Hl IH | r1 r2 t Hl IH | r1
                   | r1 s1 s2 Hl1 IH1 Hl2 IH2]; intros s Ht; simpl.
  - done.
  - injection Ht as -> <-. rewrite decide_True by done. constructor.
  - injection Ht as -> <-. rewrite decide_False by done. constructor.
  - apply string_app_eq_cons in Ht as [[-> ->]|(s1' & -> & ->)].
    + apply nullable_lang in Hl1 as ->. apply lang_alt_r; auto.
    + destruct (nullable r1);
        [apply lang_alt_l|]; constructor; auto.
  - apply lang_alt_l; auto.
  - apply lang_alt_r; auto.
  - done.
  - apply string_app_eq_cons in Ht as [[-> ->]|(s1' & -> & ->)]; [auto|].
    constructor; auto.
Qed.

Lemma re_match_prefix (r : regex) (s : string) :
  re_match r s = true ↔ ∃ p rest, s = p +:+ rest ∧ lang r p.
Proof.
  revert r. induction s as [|c s IH]; intros r; simpl.
  - rewrite orb_false_r, nullable_lang. split.
    + intros Hl. by exists "", "".
    + intros (p & rest & Hs & Hl). symmetry in Hs.
      by apply string_app_eq_empty in Hs as [-> _].
  - rewrite orb_true_iff, nullable_lang, IH. split.
    + intros [Hl|(p & rest & -> & Hl)].
      * by exists "", (String c s).
      * exists (String c p), rest. split; [done|]. by apply deriv_sound.
    + intros (p & rest & Hs & Hl). symmetry in Hs.
      apply string_app_eq_cons in Hs as [[-> _]|(p' & -> & ->)]; [by left|].
      right. exists p', rest. split; [done|]. by apply deriv_complete.
Qed.

Lemma lang_chars (p s : string) : lang (chars p) s ↔ agrees p s.
Proof.
  revert s. induction p as [|a p IH]; intros s; simpl.
  - split.
    + intros Hl. by inversion Hl.
    + destruct s; [constructor|done].
  - split.
    + intros Hl. inversion Hl as [| | |? ? s1 s2 Hl1 Hl2| | | |]; subst.
      case_decide; inversion Hl1; subst; rewrite string_app_cons, string_app_empty_l;
        (split; [done|by apply IH]).
    + destruct s as [|c s]; [done|]. intros [Hc Hs].
      change (String c s) with (String c "" +:+ s).
      constructor; [|by apply IH].
      case_decide; subst; by constructor.
Qed.

(** ** The code classifier *)

Lemma generic_equivalent_length (c : string) :
  String.length c ≠ 15 → generic_equivalent_for_bnf_code c = None.
Proof.
  intros Hlen. unfold generic_equivalent_for_bnf_code.
  destruct (Nat.eqb_spec (String.length c) 15); done.
Qed.

Lemma generic_equivalent_match (c : string) :
  re_match EXCLUSIONS_RE c = true → generic_equivalent_for_bnf_code c = None.
Proof.
  intros Hm. unfold generic_equivalent_for_bnf_code. rewrite Hm.
  by destruct (negb _).
Qed.

(** C2: a code whose length is not 15 has no generic equivalent, and neither
    has a code that starts with a string of the exclusion pattern's language,
    whatever follows and whatever its last two characters are; in both cases
    the classifier returns [None], it does not raise. *)
Theorem generic_equivalent_silent_exclusion (c : string) :
  (String.length c ≠ 15 → generic_equivalent_for_bnf_code c = None) ∧
  (∀ p rest, c = p +:+ rest → lang EXCLUSIONS_RE p →
     generic_equivalent_for_bnf_code c = None) ∧
  (re_match EXCLUSIONS_RE c = true → generic_equivalent_for_bnf_code c = None).
Proof.
  split; [apply generic_equivalent_length|].
  split; [|apply generic_equivalent_match].
  intros p rest Hc Hl. apply generic_equivalent_match, re_match_prefix. eauto.
Qed.

(** The exclusions hold for codes that end in [A0] and for codes that do
    not, and for every choice of the wildcard characters. *)
Lemma excluded_0302000C0_BE (w : string) :
  String.length w = 4 → agrees "...." w →
  generic_equivalent_for_bnf_code ("0302000C0" +:+ w +:+ "BE") = None.
Proof.
  intros Hlen Hw. apply generic_equivalent_match, re_match_prefix.
  exists ("0302000C0" +:+ w +:+ "BE"), "". split; [by rewrite string_app_empty_r|].
  apply lang_alt_l, lang_chars.
  destruct w as [|c1 [|c2 [|c3 [|c4 [|]]]]]; try done.
  simpl in *. destruct Hw as (? & ? & ? & ? & _). by repeat split.
Qed.

(** C3 fails on an excluded code ([0302000C0AAABBE] ends in [BE]) and on a
    code that is not 15 characters long. *)
Lemma suffix_rule_fails :
  ¬ suffix_rule
  ∧ slice 13 15 "0302000C0AAABBE" ≠ "A0"
  ∧ generic_equivalent_for_bnf_code "0302000C0AAABBE" = None
  ∧ slice 13 15 "0407020B0BBACACX" ≠ "A0"
  ∧ generic_equivalent_for_bnf_code "0407020B0BBACACX" = None.
Proof.
  split; [|by vm_compute].
  intros Hrule. specialize (Hrule "0302000C0AAABBE").
  vm_compute in Hrule. by specialize (Hrule ltac:(discriminate)).
Qed.

(** C3, amended: for a code of 15 characters that the exclusion pattern does
    not match and whose last two characters are not [A0], the generic
    equivalent is the first nine characters, [AA], and the last two characters
    twice. *)
Theorem generic_equivalent_suffix (c : string) :
  String.length c = 15 →
  re_match EXCLUSIONS_RE c = false →
  slice 13 15 c ≠ "A0" →
  generic_equivalent_for_bnf_code c
  = Some (slice 0 9 c +:+ "AA" +:+ slice 13 15 c +:+ slice 13 15 c).
Proof.
  intros Hlen Hm Hsuf. unfold generic_equivalent_for_bnf_code.
  rewrite Hlen, Hm. simpl. by rewrite bool_decide_eq_false_2.
Qed.

Lemma generic_equivalent_suffix_witness :
  generic_equivalent_for_bnf_code "0407020B0BBACAC" = Some "0407020B0AAACAC".
Proof.
  apply (generic_equivalent_suffix "0407020B0BBACAC");
    [reflexivity | vm_compute; reflexivity | vm_compute; discriminate].
Defined.

(** ** Insertion-ordered dictionaries *)

Section odict_facts.
Context {K V : Type} `{EqDecision K}.
Implicit Types (d : odict K V) (k : K) (v : V).

Lemma odict_get_set k k' v d :
  odict_get k (odict_set k' v d)
  = if decide (k = k') then Some v else odict_get k d.
Proof.
  induction d as [|[k0 v0] d IH]; simpl.
  - by destruct (decide (k = k')).
  - destruct (decide (k' = k0)) as [->|Hne]; simpl.
    + by destruct (decide (k = k0)).
    + destruct (decide (k = k0)) as [->|]; [|done].
      by rewrite decide_False.
Qed.

Lemma odict_get_Some_elem k v d : odict_get k d = Some v → (k, v) ∈ d.
Proof.
  induction d as [|[k0 v0] d IH]; simpl; [done|].
  case_decide; [intros [= ->]; subst; left|right; auto].
Qed.

Lemma odict_get_None k d : odict_get k d = None ↔ k ∉ odict_keys d.
Proof.
  unfold odict_keys. induction d as [|[k0 v0] d IH]; simpl.
  - split; [intros _; apply not_elem_of_nil|done].
  - rewrite not_elem_of_cons. case_decide; [subst|]; [split; [done|by intros [? _]]|].
    rewrite IH. split; [done|by intros [_ ?]].
Qed.

Lemma odict_get_is_Some k d : is_Some (odict_get k d) ↔ k ∈ odict_keys d.
Proof.
  destruct (odict_get k d) eqn:Hg.
  - split; [intros _|by eauto].
    destruct (decide (k ∈ odict_keys d)) as [|Hn]; [done|].
    apply odict_get_None in Hn. congruence.
  - apply odict_get_None in Hg. split; [by intros [? ?]|done].
Qed.

Lemma odict_elem_get k v d : NoDup (odict_keys d) → (k, v) ∈ d → odict_get k d = Some v.
Proof.
  unfold odict_keys. induction d as [|[k0 v0] d IH]; simpl.
  - intros _ Hin. by apply elem_of_nil in Hin.
  - intros [Hk0 Hnd]%NoDup_cons [[= -> ->]|Hin]%elem_of_cons.
    + by rewrite decide_True.
    + rewrite decide_False; [auto|]. intros ->. apply Hk0.
      apply list_elem_of_fmap. by exists (k0, v).
Qed.

Lemma odict_keys_set k v d :
  odict_keys (odict_set k v d)
  = if decide (k ∈ odict_keys d) then odict_keys d else odict_keys d ++ [k].
Proof.
  unfold odict_keys. induction d as [|[k0 v0] d IH].
  - destruct (decide _) as [Hin|]; [by apply elem_of_nil in Hin|done].
  - cbn [odict_set]. destruct (decide (k = k0)) as [->|Hne].
    + rewrite decide_True; [done|rewrite fmap_cons; left].
    + rewrite !fmap_cons, IH. cbn [fst].
      destruct (decide (k ∈ d.*1)).
      * rewrite decide_True; [done|by right].
      * rewrite decide_False; [done|]. by intros [?|?]%elem_of_cons.
Qed.

Lemma odict_set_NoDup k v d : NoDup (odict_keys d) → NoDup (odict_keys (odict_set k v d)).
Proof.
  intros Hnd. rewrite odict_keys_set. case_decide; [done|].
  apply NoDup_app. split_and!; [done| |apply NoDup_singleton].
  intros x Hx ->%list_elem_of_singleton. done.
Qed.

(** [for k in ks: d[k] = v] *)
Lemma odict_get_set_all k v ks d :
  odict_get k (foldl (fun g m => odict_set m v g) d ks)
  = if decide (k ∈ ks) then Some v else odict_get k d.
Proof.
  revert d. induction ks as [|m ks IH]; intros d; cbn [foldl].
  - destruct (decide _) as [Hin|]; [by apply elem_of_nil in Hin|done].
  - rewrite IH, odict_get_set.
    destruct (decide (k ∈ ks)).
    + rewrite decide_True; [done|by right].
    + destruct (decide (k = m)) as [->|].
      * rewrite decide_True; [done|left].
      * rewrite decide_False; [done|]. by intros [?|?]%elem_of_cons.
Qed.

Lemma odict_set_all_NoDup v ks d :
  NoDup (odict_keys d) →
  NoDup (odict_keys (foldl (fun g m => odict_set m v g) d ks)).
Proof.
  revert d. induction ks as [|m ks IH]; intros d Hnd; simpl; [done|].
  by apply IH, odict_set_NoDup.
Qed.
End odict_facts.

(** ** The equivalence merger: graphs *)

Section graph_facts.
Context {K : Type}.
Implicit Types (pairs : list (K * K)) (x y z a b : K).

#[global] Instance connected_equivalence pairs : Equivalence (connected pairs).
Proof. unfold connected. apply _. Qed.

Lemma edge_connected pairs a b : (a, b) ∈ pairs → connected pairs a b.
Proof. intros Hin. by apply rtsc_lr. Qed.

Lemma connected_mono pairs pairs' x y :
  (∀ p, p ∈ pairs → p ∈ pairs') → connected pairs x y → connected pairs' x y.
Proof.
  intros Hsub. apply (rtsc_congruence Datatypes.id). intros ??. apply Hsub.
Qed.

Lemma vertex_mono pairs pairs' x :
  (∀ p, p ∈ pairs → p ∈ pairs') → vertex pairs x → vertex pairs' x.
Proof. intros Hsub [y [?|?]]; exists y; auto. Qed.

(** A path that moves at all runs between vertices. *)
Lemma connected_vertex pairs x y :
  connected pairs x y → x = y ∨ (vertex pairs x ∧ vertex pairs y).
Proof.
  intros Hc. induction Hc as [x|x z y Hxz _ IH]; [by left|]. right.
  assert (vertex pairs x ∧ vertex pairs z) as [Hx Hz].
  { destruct Hxz as [Hxz|Hxz]; split; eexists; eauto. }
  split; [done|]. by destruct IH as [<-|[_ ?]].
Qed.

Lemma vertex_snoc pairs a b x :
  vertex (pairs ++ [(a, b)]) x ↔ vertex pairs x ∨ x = a ∨ x = b.
Proof.
  unfold vertex. setoid_rewrite elem_of_app.
  setoid_rewrite list_elem_of_singleton. split.
  - intros [y [[?|[= -> ->]]|[?|[= -> ->]]]]; eauto.
  - intros [[y [?|?]]|[->| ->]]; eauto 6.
Qed.

(** What one more edge connects. *)
Lemma connected_snoc pairs a b x y :
  connected (pairs ++ [(a, b)]) x y ↔
  connected pairs x y
  ∨ (connected pairs x a ∧ connected pairs b y)
  ∨ (connected pairs x b ∧ connected pairs a y).
Proof.
  split.
  - intros Hc. induction Hc as [x|x z y Hxz _ IH]; [by left|].
    assert (connected pairs x z ∨ (x = a ∧ z = b) ∨ (x = b ∧ z = a)) as Hstep.
    { destruct Hxz as [Hxz|Hxz]; apply elem_of_app in Hxz as [?|Hxz].
      - left. by apply rtsc_lr.
      - apply list_elem_of_singleton in Hxz as [= -> ->]. auto.
      - left. by apply rtsc_rl.
      - apply list_elem_of_singleton in Hxz as [= -> ->]. auto. }
    destruct Hstep as [Hxz'|[[-> ->]|[-> ->]]].
    + destruct IH as [?|[[? ?]|[? ?]]].
      * left. by etrans.
      * right. left. split; [by etrans|done].
      * right. right. split; [by etrans|done].
    + destruct IH as [?|[[? ?]|[? ?]]].
      * right. left. done.
      * left. etrans; [|done]. by symmetry.
      * by left.
    + destruct IH as [?|[[? ?]|[? ?]]].
      * right. right. done.
      * by left.
      * left. etrans; [|done]. by symmetry.
  - assert (connected (pairs ++ [(a, b)]) a b) as Hab.
    { apply edge_connected, elem_of_app. right. by apply list_elem_of_singleton. }
    assert (∀ u v, connected pairs u v → connected (pairs ++ [(a, b)]) u v) as Hmono.
    { intros u v. apply connected_mono. intros p ?. apply elem_of_app. by left. }
    intros [?|[[? ?]|[? ?]]]; [auto| |].
    + etrans; [by apply Hmono|]. etrans; [done|]. by apply Hmono.
    + etrans; [by apply Hmono|]. etrans; [by symmetry|]. by apply Hmono.
Qed.

Lemma linked_snoc pairs a b x y :
  let near z := z = a ∨ z = b ∨ linked pairs z a ∨ linked pairs z b in
  linked (pairs ++ [(a, b)]) x y ↔ (near x ∧ near y) ∨ linked pairs x y.
Proof.
  intros near.
  assert (∀ z c, connected pairs z c → z = c ∨ linked pairs z c) as Hlink.
  { intros z c Hc. destruct (connected_vertex _ _ _ Hc) as [?|[? ?]]; [by left|].
    right. done. }
  assert (∀ z, connected pairs z a → near z) as Hna.
  { intros z Hz. destruct (Hlink _ _ Hz); unfold near; auto. }
  assert (∀ z, connected pairs z b → near z) as Hnb.
  { intros z Hz. destruct (Hlink _ _ Hz); unfold near; auto. }
  unfold linked at 1. rewrite !vertex_snoc, connected_snoc. split.
  - intros (Hx & Hy & [Hc|[[Hxa Hby]|[Hxb Hay]]]).
    + destruct (Hlink _ _ Hc) as [<-|?]; [|by right].
      destruct Hx as [Hx|[->| ->]].
      * right. done.
      * left. unfold near. auto.
      * left. unfold near. auto.
    + left. split; [by apply Hna|]. apply Hnb. by symmetry.
    + left. split; [by apply Hnb|]. apply Hna. by symmetry.
  - assert (∀ z, near z →
              (vertex pairs z ∨ z = a ∨ z = b)
              ∧ (connected pairs z a ∨ connected pairs z b)) as Hnear.
    { intros z [->|[->|[(? & ? & ?)|(? & ? & ?)]]]; auto;
        (split; [auto|]); [left|right]; reflexivity. }
    intros [[Hx Hy]|(? & ? & ?)]; [|auto].
    destruct (Hnear _ Hx) as [? Hxc], (Hnear _ Hy) as [? Hyc].
    split_and!; [done..|].
    destruct Hxc, Hyc.
    + left. etrans; [done|]. by symmetry.
    + right. left. split; [done|]. by symmetry.
    + right. right. split; [done|]. by symmetry.
    + left. etrans; [done|]. by symmetry.
Qed.
End graph_facts.

(** ** The equivalence merger: the store *)

Section store_facts.
Context {K : Type} `{EqDecision K}.
Implicit Types (s : store K) (h : list (list K)) (l : loc) (x y a b : K).

Lemma deref_elem_bound h l x : x ∈ deref h l → l < length h.
Proof.
  unfold deref. destruct (h !! l) eqn:Hl; simpl.
  - intros _. by eapply lookup_lt_Some.
  - intros Hin. by apply elem_of_nil in Hin.
Qed.

Lemma deref_app_l h h' l : l < length h → deref (h ++ h') l = deref h l.
Proof. intros Hl. unfold deref. by rewrite lookup_app_l. Qed.

Lemma deref_app_length h v h' : deref (h ++ v :: h') (length h) = v.
Proof. unfold deref. by rewrite list_lookup_middle. Qed.

Lemma deref_fresh2 h u v : deref (h ++ [u; v]) (length (h ++ [u])) = v.
Proof.
  unfold deref. change (h ++ [u; v]) with (h ++ [u] ++ [v]).
  rewrite (assoc_L (++)). by rewrite list_lookup_middle.
Qed.

Lemma deref_insert_eq h l v : l < length h → deref (<[l := v]> h) l = v.
Proof. intros Hl. unfold deref. by rewrite list_lookup_insert_eq. Qed.

Lemma deref_insert_ne h l l' v : l ≠ l' → deref (<[l := v]> h) l' = deref h l'.
Proof. intros Hl. unfold deref. by rewrite list_lookup_insert_ne. Qed.

Lemma owner_bound s x l : store_wf s → owner s x = Some l → l < length (heap s).
Proof. intros Hwf Hx. eapply deref_elem_bound, wf_member; eauto. Qed.

(** [merge_pair] in terms of the groups of [a] and [b]. *)
Lemma merge_pair_unfold s a b :
  store_wf s →
  let la := default (length (heap s)) (owner s a) in
  let groups1 :=
    if owner s a is Some _ then groups s else odict_set a la (groups s) in
  let heap2 := heap s ++ [[a]; [b]] in
  merge_pair s (a, b)
  = if decide (same_group s a b) then Store groups1 heap2
    else Store (foldl (fun g member => odict_set member la g) groups1 (group_of s b))
               (<[la := group_of s a ++ group_of s b]> heap2).
Proof.
  intros Hwf. unfold merge_pair, alloc, group_of, same_group.
  rewrite <-!(assoc_L (++)). cbn [app].
  destruct (owner s a) as [la|] eqn:Ha; unfold owner in Ha |- *; rewrite Ha;
    cbv [from_option Datatypes.id].
  - pose proof (owner_bound _ _ _ Hwf Ha) as Hla.
    destruct (odict_get b (groups s)) as [lb|] eqn:Hb; cbv [from_option Datatypes.id].
    + pose proof (owner_bound _ _ _ Hwf Hb) as Hlb.
      destruct (decide (lb = la)) as [->|Hne].
      * rewrite decide_True; [done|]. right. exists la. done.
      * rewrite decide_False.
        2:{ intros [->|(l & Hl1 & Hl2)]; unfold owner in *; simplify_eq; lia. }
        by rewrite !deref_app_l.
    + rewrite decide_False by (rewrite length_app; lia).
      rewrite decide_False.
      2:{ intros [->|(l & Hl1 & Hl2)]; unfold owner in *; simplify_eq; lia. }
      by rewrite (deref_app_l _ _ la), deref_fresh2.
  - rewrite odict_get_set.
    destruct (decide (b = a)) as [->|Hne]; cbv [from_option Datatypes.id].
    + rewrite decide_True by done. rewrite decide_True; [done|by left].
    + destruct (odict_get b (groups s)) as [lb|] eqn:Hb; cbv [from_option Datatypes.id].
      * pose proof (owner_bound _ _ _ Hwf Hb) as Hlb.
        rewrite decide_False by lia.
        rewrite decide_False.
        2:{ intros [->|(l & Hl1 & Hl2)]; unfold owner in *; simplify_eq; lia. }
        rewrite (deref_app_l _ _ lb) by done.
        by rewrite deref_app_length.
      * rewrite decide_False by (rewrite length_app; simpl; lia).
        rewrite decide_False.
        2:{ intros [->|(l & Hl1 & Hl2)]; unfold owner in *; simplify_eq; lia. }
        by rewrite deref_app_length, deref_fresh2.
Qed.

Lemma group_of_elem s a x :
  store_wf s → x ∈ group_of s a ↔ x = a ∨ same s x a.
Proof.
  intros Hwf. unfold group_of, same.
  destruct (owner s a) as [la|] eqn:Ha.
  - split.
    + intros Hx. right. exists la. split; [|done]. by eapply wf_owner.
    + intros [->|(l & Hx & [= ->])]; by eapply wf_member.
  - rewrite list_elem_of_singleton. split; [by left|].
    by intros [->|(l & _ & ?)].
Qed.

Lemma group_of_NoDup s a : store_wf s → NoDup (group_of s a).
Proof.
  intros Hwf. unfold group_of. destruct (owner s a) eqn:Ha.
  - by eapply wf_nodup.
  - apply NoDup_singleton.
Qed.

Lemma same_sym s x y : same s x y → same s y x.
Proof. intros (l & ? & ?). by exists l. Qed.

Lemma same_trans s x y z : same s x y → same s y z → same s x z.
Proof. intros (l & ? & ?) (l' & ? & ?). exists l. split; congruence. Qed.

Lemma same_group_of s a b : store_wf s → same s a b → group_of s a = group_of s b.
Proof. intros Hwf (l & Ha & Hb). unfold group_of. by rewrite Ha, Hb. Qed.

Lemma merge_pair_owner s a b x :
  store_wf s →
  owner (merge_pair s (a, b)) x
  = if decide (x ∈ group_of s a ++ group_of s b)
    then Some (default (length (heap s)) (owner s a))
    else owner s x.
Proof.
  intros Hwf. rewrite merge_pair_unfold by done. cbv zeta.
  assert (odict_get x (if owner s a is Some _ then groups s
                       else odict_set a (default (length (heap s)) (owner s a))
                              (groups s))
          = if decide (x ∈ group_of s a)
            then Some (default (length (heap s)) (owner s a)) else owner s x)
    as Hg1.
  { destruct (decide (x ∈ group_of s a)) as [Hx|Hx].
    - apply group_of_elem in Hx as [->|(l & Hx & Ha)]; [| |done].
      + destruct (owner s a) eqn:Ha; [done|].
        rewrite odict_get_set. by rewrite decide_True.
      + by rewrite Ha; simpl.
    - destruct (owner s a) eqn:Ha; [done|]. rewrite odict_get_set.
      rewrite decide_False; [done|]. intros ->. apply Hx.
      apply group_of_elem; auto. }
  destruct (decide (same_group s a b)) as [Hs|Hs]; unfold owner at 1; cbn [groups].
  - rewrite Hg1.
    assert (group_of s b = group_of s a) as ->.
    { destruct Hs as [->|Hs]; [done|]. symmetry. by apply same_group_of. }
    destruct (decide (x ∈ group_of s a)).
    + rewrite decide_True; [done|]. apply elem_of_app. by left.
    + rewrite decide_False; [done|]. by intros [?|?]%elem_of_app.
  - rewrite odict_get_set_all, Hg1.
    destruct (decide (x ∈ group_of s b)).
    + rewrite decide_True; [done|]. apply elem_of_app. by right.
    + destruct (decide (x ∈ group_of s a)).
      * rewrite decide_True; [done|]. apply elem_of_app. by left.
      * rewrite decide_False; [done|]. by intros [?|?]%elem_of_app.
Qed.

Lemma merge_pair_deref_group s a b :
  store_wf s →
  deref (heap (merge_pair s (a, b))) (default (length (heap s)) (owner s a))
  = if decide (same_group s a b) then group_of s a
    else group_of s a ++ group_of s b.
Proof.
  intros Hwf. rewrite merge_pair_unfold by done. cbv zeta.
  assert (default (length (heap s)) (owner s a) < length (heap s ++ [[a]; [b]]))
    as Hlt.
  { rewrite length_app. destruct (owner s a) eqn:Ha; simpl; [|lia].
    pose proof (owner_bound _ _ _ Hwf Ha). lia. }
  destruct (decide (same_group s a b)); cbn [heap].
  - unfold group_of. destruct (owner s a) eqn:Ha; simpl.
    + rewrite deref_app_l; [done|]. by eapply owner_bound.
    + apply deref_app_length.
  - by rewrite deref_insert_eq.
Qed.

Lemma merge_pair_deref_other s a b l :
  store_wf s →
  l < length (heap s) → l ≠ default (length (heap s)) (owner s a) →
  deref (heap (merge_pair s (a, b))) l = deref (heap s) l.
Proof.
  intros Hwf Hl Hne. rewrite merge_pair_unfold by done. cbv zeta.
  destruct (decide (same_group s a b)); cbn [heap].
  - by rewrite deref_app_l.
  - rewrite deref_insert_ne by done. by rewrite deref_app_l.
Qed.

Lemma merge_pair_keys s a b :
  store_wf s → NoDup (odict_keys (groups (merge_pair s (a, b)))).
Proof.
  intros Hwf. rewrite merge_pair_unfold by done. cbv zeta.
  assert (NoDup (odict_keys (if owner s a is Some _ then groups s
                       else odict_set a (default (length (heap s)) (owner s a))
                              (groups s)))) as Hg1.
  { destruct (owner s a); [apply Hwf|]. apply odict_set_NoDup, Hwf. }
  destruct (decide (same_group s a b)); cbn [groups]; [done|].
  by apply odict_set_all_NoDup.
Qed.

(** An element outside the two groups keeps its group, and that group is
    not the one the pair is merged into. *)
Lemma owner_outside s a b x l :
  store_wf s → x ∉ (group_of s a ++ group_of s b) → owner s x = Some l →
  l ≠ default (length (heap s)) (owner s a).
Proof.
  intros Hwf Hx Hl ->. apply Hx, elem_of_app. left.
  apply group_of_elem; [done|]. right.
  destruct (owner s a) as [la|] eqn:Ha; simpl in Hl.
  - by exists la.
  - pose proof (owner_bound _ _ _ Hwf Hl). lia.
Qed.

Lemma merge_pair_wf s a b : store_wf s → store_wf (merge_pair s (a, b)).
Proof.
  intros Hwf.
  set (la := default (length (heap s)) (owner s a)).
  assert (∀ y, y ∈ deref (heap (merge_pair s (a, b))) la →
               y ∈ group_of s a ++ group_of s b) as Hsub.
  { intros y. unfold la. rewrite merge_pair_deref_group by done.
    case_decide; [|done]. intros ?. apply elem_of_app. by left. }
  assert (∀ x l, owner (merge_pair s (a, b)) x = Some l → l ≠ la →
            (x ∉ group_of s a ++ group_of s b) ∧ owner s x = Some l
            ∧ deref (heap (merge_pair s (a, b))) l = deref (heap s) l) as Hother.
  { intros x l. rewrite merge_pair_owner by done.
    case_decide as Hx; [by intros [= <-]|]. intros Hl Hne.
    split_and!; [done..|].
    apply merge_pair_deref_other; [done| |done]. by eapply owner_bound. }
  split.
  - by apply merge_pair_keys.
  - intros x l Hx. destruct (decide (l = la)) as [->|Hne].
    + rewrite merge_pair_owner in Hx by done.
      case_decide as Hin.
      2:{ exfalso. by eapply owner_outside. }
      unfold la. rewrite merge_pair_deref_group by done.
      case_decide as Hs; [|done].
      apply elem_of_app in Hin as [?|Hin]; [done|].
      destruct Hs as [->|Hs]; [done|].
      by rewrite (same_group_of s a b).
    + destruct (Hother _ _ Hx Hne) as (_ & Hx' & ->). by eapply wf_member.
  - intros x l y Hx Hy. destruct (decide (l = la)) as [->|Hne].
    + rewrite merge_pair_owner by done. rewrite decide_True; [done|auto].
    + destruct (Hother _ _ Hx Hne) as (Hxout & Hx' & Heq).
      rewrite Heq in Hy. pose proof (wf_owner _ Hwf _ _ _ Hx' Hy) as Hy'.
      rewrite merge_pair_owner by done.
      rewrite decide_False; [done|]. intros Hyin. apply Hxout.
      rewrite elem_of_app, !group_of_elem in Hyin |- * by done.
      assert (same s x y) as Hxy by (by exists l).
      destruct Hyin as [[->|Hya]|[->|Hyb]].
      * left. right. done.
      * left. right. by eapply same_trans.
      * right. right. done.
      * right. right. by eapply same_trans.
  - intros x l Hx. destruct (decide (l = la)) as [->|Hne].
    + unfold la. rewrite merge_pair_deref_group by done.
      case_decide as Hs; [by apply group_of_NoDup|].
      apply NoDup_app. split_and!; [by apply group_of_NoDup| |by apply group_of_NoDup].
      intros z Hza Hzb. apply Hs.
      rewrite group_of_elem in Hza, Hzb by done. unfold same_group.
      destruct Hza as [->|Hza], Hzb as [->|Hzb]; auto.
      * right. by apply same_sym.
      * right. eapply same_trans; [by apply same_sym|done].
    + destruct (Hother _ _ Hx Hne) as (_ & Hx' & ->). by eapply wf_nodup.
Qed.

Lemma store_empty_wf : store_wf (Store (K:=K) [] []).
Proof. split; try done. constructor. Qed.

Lemma merge_pairs_snoc (pairs : list (K * K)) p :
  merge_pairs (pairs ++ [p]) = merge_pair (merge_pairs pairs) p.
Proof. unfold merge_pairs. by rewrite foldl_app. Qed.

Lemma merge_pairs_wf (pairs : list (K * K)) : store_wf (merge_pairs pairs).
Proof.
  induction pairs as [|[a b] pairs IH] using rev_ind.
  - apply store_empty_wf.
  - rewrite merge_pairs_snoc. by apply merge_pair_wf.
Qed.

Lemma merge_pair_same s a b x y :
  store_wf s →
  let near z := z = a ∨ z = b ∨ same s z a ∨ same s z b in
  same (merge_pair s (a, b)) x y ↔ (near x ∧ near y) ∨ same s x y.
Proof.
  intros Hwf near.
  assert (∀ z, z ∈ group_of s a ++ group_of s b ↔ near z) as Hnear.
  { intros z. rewrite elem_of_app, !group_of_elem by done. unfold near. tauto. }
  assert (∀ u v, same s u v → near u → near v) as Hclosed.
  { intros u v Huv [->|[->|[?|?]]]; unfold near.
    - right. right. left. by apply same_sym.
    - right. right. right. by apply same_sym.
    - right. right. left. eapply same_trans; [by apply same_sym|done].
    - right. right. right. eapply same_trans; [by apply same_sym|done]. }
  unfold same at 1. setoid_rewrite merge_pair_owner; [|done..].
  split.
  - intros (l & Hx & Hy). do 2 case_decide.
    + left. split; by apply Hnear.
    + simplify_eq. exfalso. by eapply owner_outside.
    + simplify_eq. exfalso. by eapply owner_outside.
    + right. by exists l.
  - intros [[Hx Hy]|Hxy].
    + eexists. rewrite !decide_True by (by apply Hnear). done.
    + destruct (decide (x ∈ group_of s a ++ group_of s b)) as [Hx|Hx].
      * eexists. split; [done|]. rewrite decide_True; [done|].
        apply Hnear. eapply Hclosed; [done|]. by apply Hnear.
      * destruct Hxy as (l & Hlx & Hly). exists l. split; [done|].
        rewrite decide_False; [done|]. intros Hy. apply Hx.
        apply Hnear. eapply (Hclosed y); [by exists l|]. by apply Hnear.
Qed.

(** The recorded groups are the connected components of the pairs read. *)
Lemma merge_pairs_same (pairs : list (K * K)) x y :
  same (merge_pairs pairs) x y ↔ linked pairs x y.
Proof.
  revert x y. induction pairs as [|[a b] pairs IH] using rev_ind; intros x y.
  - split.
    + by intros (l & ? & ?).
    + intros ([z [Hz|Hz]] & _); by apply elem_of_nil in Hz.
  - rewrite merge_pairs_snoc, merge_pair_same by apply merge_pairs_wf.
    rewrite linked_snoc. cbv zeta. by rewrite !IH.
Qed.

Lemma for_each_yield h its acc :
  (∀ x l, (x, l) ∈ its → deref h l ≠ []) →
  for_each (fun out item => gs <~ yield_group h item;; Ok (out ++ gs)) acc its
  = Ok (acc ++ yielded_from h its).
Proof.
  revert acc. induction its as [|[x l] its IH]; intros acc Hne; simpl.
  - by rewrite app_nil_r.
  - assert (deref h l ≠ []) as Hl by (apply (Hne x); left).
    destruct (deref h l) as [|x0 g] eqn:Hg; [done|]. simpl.
    destruct (decide (x = x0)) as [->|Hx]; simpl.
    + rewrite decide_True by done. rewrite IH.
      * by rewrite <-(assoc_L (++)).
      * intros ???. eapply Hne. by right.
    + rewrite decide_False by congruence. rewrite app_nil_r. apply IH.
      intros ???. eapply Hne. by right.
Qed.

Lemma groups_from_pairs_yielded (pairs : list (K * K)) :
  groups_from_pairs pairs
  = Ok (yielded_from (heap (merge_pairs pairs)) (groups (merge_pairs pairs))).
Proof.
  unfold groups_from_pairs. rewrite for_each_yield; [done|].
  intros x l Hin Hnil.
  assert (owner (merge_pairs pairs) x = Some l) as Hx.
  { apply odict_elem_get; [apply merge_pairs_wf|done]. }
  apply (wf_member _ (merge_pairs_wf pairs)) in Hx. rewrite Hnil in Hx.
  by apply elem_of_nil in Hx.
Qed.

Lemma elem_of_yielded_from h its g :
  g ∈ yielded_from h its ↔
  ∃ x l, (x, l) ∈ its ∧ g = deref h l ∧ head g = Some x.
Proof.
  unfold yielded_from. rewrite list_elem_of_omap. split.
  - intros ([x l] & Hin & Hg). case_decide; [|done]. simplify_eq. eauto.
  - intros (x & l & Hin & -> & Hhd). exists (x, l). split; [done|].
    by rewrite decide_True.
Qed.

Lemma yielded_covers s x l :
  store_wf s → owner s x = Some l → deref (heap s) l ∈ yielded_from (heap s) (groups s).
Proof.
  intros Hwf Hx. apply elem_of_yielded_from.
  pose proof (wf_member _ Hwf _ _ Hx) as Hin.
  destruct (deref (heap s) l) as [|x0 g] eqn:Hg; [by apply elem_of_nil in Hin|].
  exists x0, l. split_and!; [|done..].
  apply odict_get_Some_elem. eapply wf_owner; [done..|]. rewrite Hg. left.
Qed.

Lemma yielded_NoDup s its :
  store_wf s → NoDup its.*1 → (∀ x l, (x, l) ∈ its → owner s x = Some l) →
  NoDup (mjoin (yielded_from (heap s) its)).
Proof.
  intros Hwf. induction its as [|[x l] its IH]; intros Hnd Hits; simpl.
  - constructor.
  - rewrite fmap_cons in Hnd. apply NoDup_cons in Hnd as [Hx Hnd].
    assert (NoDup (mjoin (yielded_from (heap s) its))) as IH'.
    { apply IH; [done|]. intros ???. apply Hits. by right. }
    case_decide as Hhd; [|done]. simpl.
    assert (owner s x = Some l) as Hxl by (apply Hits; left).
    apply NoDup_app. split_and!; [by eapply wf_nodup| |done].
    intros z Hz (g & Hzg & Hg)%list_elem_of_join.
    apply elem_of_yielded_from in Hg as (x' & l' & Hin' & -> & Hhd').
    assert (owner s x' = Some l') as Hxl' by (apply Hits; by right).
    assert (l' = l) as ->.
    { pose proof (wf_owner _ Hwf _ _ _ Hxl Hz).
      pose proof (wf_owner _ Hwf _ _ _ Hxl' Hzg). congruence. }
    apply Hx. apply list_elem_of_fmap. exists (x', l). split; [|done].
    simpl. congruence.
Qed.

Implicit Types (pairs : list (K * K)) (out : list (list K)).

Lemma groups_from_pairs_components_of pairs :
  ∃ out, groups_from_pairs pairs = Ok out ∧ components_of pairs out.
Proof.
  eexists. split; [apply groups_from_pairs_yielded|].
  pose proof (merge_pairs_wf pairs) as Hwf.
  set (s := merge_pairs pairs) in *.
  split_and!.
  - intros g (x & l & Hin & -> & Hhd)%elem_of_yielded_from.
    apply odict_elem_get in Hin; [|apply Hwf].
    split; [by intros Hg; rewrite Hg in Hhd|].
    intros z Hz.
    assert (owner s z = Some l) as Hzl by (by apply (wf_owner _ Hwf x)).
    split.
    + assert (same s z z) as Hzz by (by exists l).
      apply merge_pairs_same in Hzz. apply Hzz.
    + intros y. split.
      * intros Hy. assert (same s z y) as Hzy.
        { exists l. split; [done|]. by apply (wf_owner _ Hwf x). }
        apply merge_pairs_same in Hzy. apply Hzy.
      * intros Hc. destruct (connected_vertex _ _ _ Hc) as [<-|[Hvz Hvy]]; [done|].
        assert (same s z y) as (l' & Hl1 & Hl2).
        { apply merge_pairs_same. done. }
        simplify_eq. by eapply wf_member.
  - intros x Hx.
    assert (same s x x) as (l & Hl & _).
    { apply merge_pairs_same. split_and!; done. }
    exists (deref (heap s) l). split; [by apply (yielded_covers _ x)|].
    by eapply wf_member.
  - apply yielded_NoDup; [done|apply Hwf|].
    intros x l Hin. apply odict_elem_get; [apply Hwf|done].
Qed.

(** Components are determined by the set of edges. *)
Lemma components_of_same_partition pairs pairs' out out' :
  (∀ p, p ∈ pairs ↔ p ∈ pairs') →
  components_of pairs out → components_of pairs' out' →
  same_partition out out'.
Proof.
  assert (∀ (ps ps' : list (K * K)) (o o' : list (list K)),
            (∀ p, p ∈ ps → p ∈ ps') → (∀ p, p ∈ ps' → p ∈ ps) →
            components_of ps o → components_of ps' o' →
            ∀ g, g ∈ o → ∃ g', g' ∈ o' ∧ same_set g g') as Hhalf.
  { intros ps ps' o o' Hsub Hsup (Hcomp & _ & _) (Hcomp' & Hcov' & _) g Hg.
    destruct (Hcomp _ Hg) as [Hne Hg'].
    destruct g as [|x g0]; [done|].
    destruct (Hg' x ltac:(left)) as [Hvx Hx].
    destruct (Hcov' x) as (g' & Hin' & Hxg'); [by eapply vertex_mono|].
    exists g'. split; [done|]. intros y.
    destruct (Hcomp' _ Hin') as [_ Hg''].
    destruct (Hg'' x Hxg') as [_ Hx'].
    rewrite Hx, Hx'. split; by apply connected_mono. }
  intros Hiff Hc Hc'. split.
  - eapply Hhalf; [| |done..]; intros p; apply Hiff.
  - intros g' Hg'.
    destruct (Hhalf pairs' pairs out' out) with (g := g') as (g & ? & Hs);
      [intros p; apply Hiff..|done|done|done|].
    exists g. split; [done|]. intros x. by rewrite (Hs x).
Qed.

(** When all vertices are connected there is one group. *)
Lemma components_of_single pairs out vs :
  vs ≠ [] →
  (∀ x, vertex pairs x ↔ x ∈ vs) →
  (∀ x y, x ∈ vs → y ∈ vs → connected pairs x y) →
  components_of pairs out →
  ∃ g, out = [g] ∧ same_set g vs.
Proof.
  intros Hne Hvs Hconn (Hcomp & Hcov & Hnd).
  assert (∀ g, g ∈ out → same_set g vs) as Hall.
  { intros g Hg y. destruct (Hcomp _ Hg) as [Hgne Hg'].
    destruct g as [|x g0]; [done|].
    destruct (Hg' x ltac:(left)) as [Hvx Hx]. rewrite Hx. split.
    - intros Hc. destruct (connected_vertex _ _ _ Hc) as [<-|[_ ?]]; by apply Hvs.
    - intros Hy. apply Hconn; [by apply Hvs|done]. }
  destruct vs as [|v vs]; [done|].
  destruct (Hcov v) as (g & Hg & Hvg); [apply Hvs; left|].
  destruct out as [|g1 [|g2 out]].
  - by apply elem_of_nil in Hg.
  - exists g1. split; [done|]. apply Hall. left.
  - exfalso. simpl in Hnd. apply NoDup_app in Hnd as (_ & Hdisj & _).
    apply (Hdisj v).
    + apply (Hall g1); left.
    + apply elem_of_app. left. apply (Hall g2); [right; left|left].
Qed.

Lemma groups_from_pairs_transitive a b c :
  ∃ g, groups_from_pairs [(a, b); (b, c)] = Ok [g] ∧ same_set g [a; b; c].
Proof.
  destruct (groups_from_pairs_components_of [(a, b); (b, c)]) as (out & Hout & Hc).
  destruct (components_of_single [(a, b); (b, c)] out [a; b; c])
    as (g & -> & Hg); [done| | |done|].
  - intros x. unfold vertex. split.
    + intros [y [Hy|Hy]]; repeat (apply elem_of_cons in Hy as [Hy|Hy]);
        try (by apply elem_of_nil in Hy); simplify_eq;
        repeat (first [left; done|right]); left.
    + intros Hx. repeat (apply elem_of_cons in Hx as [->|Hx]);
        [exists b; left; left|exists a; right; left
        |exists b; right; right; left|by apply elem_of_nil in Hx].
  - assert (connected [(a, b); (b, c)] a b) as Hab
      by (apply edge_connected; left).
    assert (connected [(a, b); (b, c)] b c) as Hbc
      by (apply edge_connected; right; left).
    assert (∀ x, x ∈ [a; b; c] → connected [(a, b); (b, c)] a x) as Hax.
    { intros x Hx. repeat (apply elem_of_cons in Hx as [->|Hx]);
        [done|done|by etrans|by apply elem_of_nil in Hx]. }
    intros x y Hx Hy. etrans; [symmetry; by apply Hax|by apply Hax].
  - by exists g.
Qed.

(** C4: [groups_from_pairs] returns, as a set of sets, exactly the connected
    components of the undirected graph whose edges are the pairs: every
    group is a component, every vertex is in a group, and no element occurs
    twice in the output. Consequently two pair lists with the same pairs, in
    any order and with any repetitions, give the same set of sets, and the
    pairs (A,B) and (B,C) give the one group {A,B,C}. *)
Theorem groups_from_pairs_components pairs :
  ∃ out,
    groups_from_pairs pairs = Ok out
    ∧ components_of pairs out
    ∧ (∀ pairs', (∀ p, p ∈ pairs ↔ p ∈ pairs') →
         ∃ out', groups_from_pairs pairs' = Ok out' ∧ same_partition out out')
    ∧ (∀ a b c, ∃ g, groups_from_pairs [(a, b); (b, c)] = Ok [g]
                     ∧ same_set g [a; b; c]).
Proof.
  destruct (groups_from_pairs_components_of pairs) as (out & Hout & Hc).
  exists out. split_and!; [done..| |apply groups_from_pairs_transitive].
  intros pairs' Hiff.
  destruct (groups_from_pairs_components_of pairs') as (out' & Hout' & Hc').
  exists out'. split; [done|]. by eapply components_of_same_partition.
Qed.

(** C8, amended: when the elements of a processed pair [(a, b)] are in two
    different groups, the group of [b] is appended to the group of [a],
    whatever their sizes: the list of [a] becomes its old elements followed
    by those of [b], every element of either group is mapped to that list,
    and the other elements keep their groups. *)
Theorem merge_pair_appends pairs a b :
  let s := merge_pairs pairs in
  let s' := merge_pair s (a, b) in
  ¬ same_group s a b →
  owner s' a = Some (default (length (heap s)) (owner s a))
  ∧ group_of s' a = group_of s a ++ group_of s b
  ∧ (∀ m, m ∈ group_of s a ++ group_of s b → owner s' m = owner s' a)
  ∧ (∀ m, (m ∉ group_of s a ++ group_of s b) → owner s' m = owner s m).
Proof.
  intros s s' Hdiff. pose proof (merge_pairs_wf pairs) as Hwf. fold s in Hwf.
  assert (a ∈ group_of s a ++ group_of s b) as Ha.
  { apply elem_of_app. left. apply group_of_elem; auto. }
  assert (owner s' a = Some (default (length (heap s)) (owner s a))) as Hsa.
  { unfold s'. rewrite merge_pair_owner by done. by rewrite decide_True. }
  split_and!.
  - done.
  - unfold group_of at 1. rewrite Hsa. unfold s'.
    rewrite merge_pair_deref_group by done. by rewrite decide_False.
  - intros m Hm. rewrite Hsa. unfold s'. rewrite merge_pair_owner by done.
    by rewrite decide_True.
  - intros m Hm. unfold s'. rewrite merge_pair_owner by done.
    by rewrite decide_False.
Qed.
End store_facts.

Lemma merge_pair_appends_witness :
  group_of (merge_pair (merge_pairs [(1, 2)]) (3, 1)) 3 = [3; 1; 2].
Proof.
  refine (proj1 (proj2 (merge_pair_appends [(1, 2)] 3 1 _))).
  intros [Heq|(l & H1 & H2)]; [discriminate|].
  vm_compute in H1. discriminate.
Defined.

(** C8 fails when the first element of the pair is in the smaller group: after
    the pair (1, 2), the pair (3, 1) appends the group [1; 2] to the new
    group [3]. *)
Lemma merges_smaller_into_larger_fails : ¬ merges_smaller_into_larger nat.
Proof.
  intros Hclaim. specialize (Hclaim [(1, 2)] 3 1). cbv zeta in Hclaim.
  assert (¬ same_group (merge_pairs [(1, 2)]) 3 1) as Hdiff.
  { intros [Heq|(l & H1 & H2)]; [discriminate|]. vm_compute in H1. discriminate. }
  specialize (Hclaim Hdiff). vm_compute in Hclaim. discriminate.
Qed.

(** ** The swap table loader: reading the rows *)

Lemma bind_Ok {A B : Type} (m : result A) (f : A → result B) (b : B) :
  bind m f = Ok b ↔ ∃ a, m = Ok a ∧ f a = Ok b.
Proof.
  destruct m as [a|e]; simpl.
  - split; [by exists a|]. by intros (a' & [= <-] & ?).
  - split; [done|]. by intros (? & ? & _).
Qed.

Lemma read_row_skip st row : ¬ accepted row → read_row st row = Ok st.
Proof.
  intros Hacc. unfold read_row. destruct st as [cp fm].
  by rewrite bool_decide_eq_false_2.
Qed.

Lemma read_row_accept cp fm row :
  accepted row → well_formed row →
  read_row (cp, fm) row = Ok (cp ++ [pair_of row], label_row fm row).
Proof.
  intros Hacc (Hc & Ha & Hne). unfold read_row.
  rewrite bool_decide_eq_true_2 by done. simpl.
  rewrite !bool_decide_eq_true_2 by done. simpl.
  by rewrite bool_decide_eq_false_2.
Qed.

Lemma read_row_reject st row :
  accepted row → ¬ well_formed row → read_row st row = Raise AssertionError.
Proof.
  intros Hacc Hbad. unfold read_row. destruct st as [cp fm].
  rewrite bool_decide_eq_true_2 by done. simpl.
  destruct (decide (self_generic (strip (Code row)))) as [Hc|Hc].
  2:{ by rewrite bool_decide_eq_false_2. }
  rewrite bool_decide_eq_true_2 by done. simpl.
  destruct (decide (self_generic (strip (Alternative_code row)))) as [Ha|Ha].
  2:{ by rewrite bool_decide_eq_false_2. }
  rewrite bool_decide_eq_true_2 by done. simpl.
  destruct (decide (strip (Code row) = strip (Alternative_code row))) as [He|He].
  - by rewrite bool_decide_eq_true_2.
  - exfalso. by apply Hbad.
Qed.

Lemma read_rows_filter st data :
  for_each read_row st data = for_each read_row st (filter accepted data).
Proof.
  revert st. induction data as [|row data IH]; intros st; [done|].
  destruct (decide (accepted row)) as [Hacc|Hacc].
  - rewrite filter_cons_True by done. cbn [for_each].
    destruct (read_row st row); cbn [bind]; auto.
  - rewrite filter_cons_False by done. cbn [for_each].
    rewrite read_row_skip by done. cbn [bind]. apply IH.
Qed.

Lemma read_rows_ok cp fm data :
  Forall (fun row => accepted row → well_formed row) data →
  for_each read_row (cp, fm) data
  = Ok (cp ++ (pair_of <$> filter accepted data),
        foldl label_row fm (filter accepted data)).
Proof.
  intros Hall. revert cp fm.
  induction Hall as [|row data Hrow _ IH]; intros cp fm; cbn [for_each].
  - by rewrite filter_nil, app_nil_r.
  - destruct (decide (accepted row)) as [Hacc|Hacc].
    + rewrite filter_cons_True by done.
      rewrite read_row_accept by auto. cbn [bind].
      by rewrite IH, fmap_cons, <-(assoc_L (++)).
    + rewrite filter_cons_False by done.
      rewrite read_row_skip by done. cbn [bind]. apply IH.
Qed.

Lemma read_rows_fail st data :
  Exists (fun row => accepted row ∧ ¬ well_formed row) data →
  for_each read_row st data = Raise AssertionError.
Proof.
  intros Hex. revert st.
  induction Hex as [row data [Hacc Hbad]|row data _ IH]; intros st; cbn [for_each].
  - by rewrite read_row_reject.
  - destruct (read_row st row) as [st'|e] eqn:Hrow; cbn [bind]; [apply IH|].
    destruct (decide (accepted row)) as [Hacc|Hacc].
    + destruct (decide (well_formed row)) as [Hwf|Hwf].
      * destruct st. by rewrite read_row_accept in Hrow.
      * rewrite read_row_reject in Hrow by done. congruence.
    + by rewrite read_row_skip in Hrow.
Qed.

(** A load succeeds exactly when every accepted row passes the assertions. *)
Lemma read_file_ok data :
  Forall (fun row => accepted row → well_formed row) data →
  ∃ out,
    groups_from_pairs (code_pairs_of data) = Ok out
    ∧ components_of (code_pairs_of data) out
    ∧ read_formulation_swaps_file data
      = Ok ((fun g => (g, formulations_for_group (formulations_of data) g)) <$> out).
Proof.
  intros Hall.
  destruct (groups_from_pairs_components_of (code_pairs_of data))
    as (out & Hout & Hc).
  exists out. split_and!; [done..|].
  unfold read_formulation_swaps_file. rewrite read_rows_ok by done. simpl.
  fold (code_pairs_of data). rewrite Hout. done.
Qed.

Lemma read_file_fail data :
  Exists (fun row => accepted row ∧ ¬ well_formed row) data →
  read_formulation_swaps_file data = Raise AssertionError.
Proof.
  intros Hex. unfold read_formulation_swaps_file.
  by rewrite read_rows_fail.
Qed.

Lemma rows_dec data :
  Forall (fun row => accepted row → well_formed row) data
  ∨ Exists (fun row => accepted row ∧ ¬ well_formed row) data.
Proof.
  induction data as [|row data [IH|IH]].
  - left. constructor.
  - destruct (decide (accepted row)) as [Hacc|Hacc].
    + destruct (decide (well_formed row)) as [Hwf|Hwf].
      * left. by constructor.
      * right. by left.
    + left. by constructor.
  - right. by right.
Qed.

(** ** Sorting *)

Lemma sorted_Permutation xs : sorted xs ≡ₚ xs.
Proof. apply merge_sort_Permutation. Qed.

Lemma sorted_Sorted xs : StronglySorted String.le (sorted xs).
Proof. apply StronglySorted_merge_sort; apply _. Qed.

(** The sorted list is the only sorted permutation: the order in which the
    elements come does not matter. *)
Lemma sorted_unique xs ys : xs ≡ₚ ys → sorted xs = sorted ys.
Proof.
  intros Hp. apply (StronglySorted_unique String.le); [apply sorted_Sorted..|].
  by rewrite !sorted_Permutation.
Qed.

Lemma sorted_head codes p rest : sorted codes = p :: rest → smallest codes p.
Proof.
  intros Hs. pose proof (sorted_Sorted codes) as Hsorted.
  pose proof (sorted_Permutation codes) as Hperm.
  rewrite Hs in Hsorted, Hperm. split.
  - rewrite <-Hperm. left.
  - intros m Hm. rewrite <-Hperm in Hm.
    apply StronglySorted_inv in Hsorted as [_ Hall].
    apply elem_of_cons in Hm as [->|Hm]; [done|].
    by eapply Forall_forall in Hall.
Qed.

Lemma sorted_cons codes : codes ≠ [] → ∃ p rest, sorted codes = p :: rest.
Proof.
  intros Hne. destruct (sorted codes) as [|p rest] eqn:Hs; [|by eauto].
  pose proof (sorted_Permutation codes) as Hperm. rewrite Hs in Hperm.
  symmetry in Hperm. by apply Permutation_nil_r in Hperm.
Qed.

Lemma smallest_unique codes codes' p p' :
  (∀ m, m ∈ codes ↔ m ∈ codes') → smallest codes p → smallest codes' p' → p = p'.
Proof.
  intros Hiff [Hp Hle] [Hp' Hle'].
  apply (anti_symm String.le); [apply Hle|apply Hle']; by apply Hiff.
Qed.

(** ** The swap table loader: choosing the primary codes *)

Lemma insert_all_lookup (p m : string) (codes : list string) (sw : gmap string string) :
  foldl (fun sw code => <[code := p]> sw) sw codes !! m
  = if decide (m ∈ codes) then Some p else sw !! m.
Proof.
  revert sw. induction codes as [|c codes IH]; intros sw; cbn [foldl].
  - destruct (decide _) as [Hin|]; [by apply elem_of_nil in Hin|done].
  - rewrite IH. destruct (decide (m ∈ codes)) as [Hm|Hm].
    + rewrite decide_True; [done|by right].
    + destruct (decide (m = c)) as [->|Hne].
      * rewrite lookup_insert_eq. rewrite decide_True; [done|left].
      * rewrite lookup_insert_ne by done.
        rewrite decide_False; [done|]. by intros [?|?]%elem_of_cons.
Qed.

Lemma add_group_ok sw ds codes forms p rest :
  sorted codes = p :: rest →
  add_group (sw, ds) (codes, forms)
  = Ok (foldl (fun sw code => <[code := p]> sw) sw codes,
        if (1 <? length forms)%nat
        then <[p := join " / " (sorted forms)]> ds else ds).
Proof. intros Hs. unfold add_group. by rewrite Hs. Qed.

Lemma add_groups_spec (gs : list (list string * list string)) sw ds :
  (∀ codes, codes ∈ gs.*1 → codes ≠ []) →
  NoDup (mjoin gs.*1) →
  ∃ sw' ds',
    for_each add_group (sw, ds) gs = Ok (sw', ds')
    ∧ (∀ codes forms, (codes, forms) ∈ gs →
         ∃ p, smallest codes p
              ∧ (∀ m, m ∈ codes → sw' !! m = Some p)
              ∧ ds' !! p = from_option Some (ds !! p) (description forms))
    ∧ (∀ m, m ∉ mjoin gs.*1 → sw' !! m = sw !! m ∧ ds' !! m = ds !! m).
Proof.
  revert sw ds. induction gs as [|[codes forms] gs IH]; intros sw ds Hne Hnd.
  - exists sw, ds. split_and!; [done| |done].
    intros ?? Hin. by apply elem_of_nil in Hin.
  - rewrite fmap_cons in Hne, Hnd. cbn [mjoin list_join fst] in Hnd.
    apply NoDup_app in Hnd as (Hnd1 & Hdisj & Hnd2).
    destruct (sorted_cons codes) as (p & rest & Hs); [apply Hne; left|].
    pose proof (sorted_head _ _ _ Hs) as Hp.
    cbn [for_each]. rewrite (add_group_ok _ _ _ _ _ _ Hs). cbn [bind].
    edestruct IH as (sw' & ds' & Hrun & Hgroups & Hrest);
      [intros ??; apply Hne; by right|done|].
    exists sw', ds'. split; [exact Hrun|]. split.
    + intros codes' forms' [[= -> ->]|Hin]%elem_of_cons.
      * exists p. destruct Hp as [Hpin Hple].
        split_and!; [by split| |].
        -- intros m Hm. destruct (Hrest m) as [-> _]; [by apply Hdisj|].
           rewrite insert_all_lookup. by rewrite decide_True.
        -- destruct (Hrest p) as [_ ->]; [by apply Hdisj|].
           unfold description. destruct (1 <? length forms)%nat; simpl; [|done].
           by rewrite lookup_insert_eq.
      * destruct (Hgroups _ _ Hin) as (p' & Hp' & Hsw & Hds).
        exists p'. split_and!; [done..|]. rewrite Hds.
        assert (p' ≠ p) as Hpp.
        { intros ->. apply (Hdisj p); [apply Hp|].
          apply list_elem_of_join. exists codes'. split; [apply Hp'|].
          apply list_elem_of_fmap. by exists (codes', forms'). }
        destruct (1 <? length forms)%nat; [|done].
        by rewrite lookup_insert_ne.
    + intros m Hm. cbn [mjoin list_join fst] in Hm.
      apply not_elem_of_app in Hm as [Hm1 Hm2].
      destruct (Hrest m Hm2) as [-> ->].
      rewrite insert_all_lookup. rewrite decide_False by done.
      split; [done|]. destruct (1 <? length forms)%nat; [|done].
      rewrite lookup_insert_ne; [done|]. intros ->. apply Hm1, Hp.
Qed.

(** The description does not depend on the order in which the set of labels
    is iterated. *)
Lemma description_Permutation forms forms' :
  forms ≡ₚ forms' → description forms = description forms'.
Proof.
  intros Hp. unfold description.
  by rewrite (sorted_unique _ _ Hp), (Permutation_length Hp).
Qed.

(** ** The swap table loader: the labels of a group *)

Lemma truthy_label_Some o label :
  truthy_label o = Some label ↔ o = Some label ∧ label ≠ "".
Proof.
  unfold truthy_label. destruct o as [s|]; [|by split; [|intros [? _]]].
  case_bool_decide as Hs.
  - split; [done|]. intros [[= ->] ?]. done.
  - split; [by intros [= ->]|]. by intros [[= ->] _].
Qed.

Lemma formulations_for_group_NoDup fm codes :
  NoDup (formulations_for_group fm codes).
Proof.
  unfold formulations_for_group.
  pose proof (NoDup_elements
    (list_to_set ((fun code => fm !! code) <$> codes) : gset (option string))) as Hnd.
  induction Hnd as [|o os Ho _ IH]; simpl; [constructor|].
  destruct (truthy_label o) as [label|] eqn:Hl; [|done].
  constructor; [|done].
  intros (o' & Ho' & Hl')%list_elem_of_omap.
  apply truthy_label_Some in Hl as [-> _], Hl' as [-> _]. done.
Qed.

Lemma elem_of_formulations_for_group fm codes label :
  label ∈ formulations_for_group fm codes ↔
  label ≠ "" ∧ ∃ m, m ∈ codes ∧ fm !! m = Some label.
Proof.
  unfold formulations_for_group.
  rewrite list_elem_of_omap. setoid_rewrite truthy_label_Some.
  setoid_rewrite elem_of_elements. setoid_rewrite elem_of_list_to_set.
  setoid_rewrite list_elem_of_fmap. split.
  - intros (o & (m & -> & Hm) & Ho & Hne). eauto.
  - intros (Hne & m & Hm & Hl). exists (Some label). eauto.
Qed.

Lemma label_row_lookup fm row m :
  label_row fm row !! m
  = if decide (strip (Alternative_code row) = m)
    then Some (strip (Alternative_formulation row))
    else if decide (strip (Code row) = m)
         then Some (strip (Formulation row)) else fm !! m.
Proof.
  unfold label_row. rewrite lookup_insert. case_decide; [done|].
  by rewrite lookup_insert.
Qed.

Lemma label_rows_lookup rows m label :
  foldl label_row ∅ rows !! m = Some label ↔ last_mention rows m label.
Proof.
  revert label. induction rows as [|r rows IH] using rev_ind; intros label.
  - simpl. split; [done|].
    intros (before & row & after & Heq & _). by destruct before.
  - rewrite foldl_app. cbn [foldl]. rewrite label_row_lookup. split.
    + case_decide as Ha; [|case_decide as Hc].
      * intros [= <-]. exists rows, r, []. split_and!; [done| |by left].
        intros ? Hin. by apply elem_of_nil in Hin.
      * intros [= <-]. exists rows, r, []. split_and!; [done| |by right].
        intros ? Hin. by apply elem_of_nil in Hin.
      * intros (before & row & after & -> & Hafter & Hrow)%IH.
        exists before, row, (after ++ [r]).
        split_and!; [by rewrite <-(assoc_L (++))| |done].
        intros row' [?|Hr%list_elem_of_singleton]%elem_of_app; [auto|by subst].
    + intros (before & row & after & Heq & Hafter & Hrow).
      destruct after as [|r' after _] using rev_ind.
      * apply app_inj_tail in Heq as [-> ->].
        destruct Hrow as [[Ha ->]|(Ha & Hc & ->)].
        -- by rewrite decide_True.
        -- rewrite decide_False by done. by rewrite decide_True.
      * rewrite app_comm_cons, (assoc_L (++)) in Heq.
        apply app_inj_tail in Heq as [-> ->].
        destruct (Hafter r') as [Hc Ha];
          [apply elem_of_app; right; by apply list_elem_of_singleton|].
        rewrite !decide_False by done. apply IH.
        exists before, row, after. split_and!; [done| |done].
        intros row' Hin. apply Hafter, elem_of_app. by left.
Qed.

Lemma formulations_of_lookup data m label :
  formulations_of data !! m = Some label ↔ last_label data m label.
Proof. apply label_rows_lookup. Qed.

(** ** The swap table loader: what [get_formulation_swaps] returns *)

Lemma get_formulation_swaps_Ok data swaps descs :
  get_formulation_swaps data = Ok (swaps, descs) →
  Forall (fun row => accepted row → well_formed row) data.
Proof.
  intros Hget. destruct (rows_dec data) as [?|Hex]; [done|].
  unfold get_formulation_swaps in Hget.
  by rewrite read_file_fail in Hget.
Qed.

Lemma get_formulation_swaps_spec data :
  Forall (fun row => accepted row → well_formed row) data →
  ∃ out swaps descs,
    components_of (code_pairs_of data) out
    ∧ read_formulation_swaps_file data = Ok (group_with data <$> out)
    ∧ get_formulation_swaps data = Ok (swaps, descs)
    ∧ (∀ codes, codes ∈ out →
         ∃ p, smallest codes p
              ∧ (∀ m, m ∈ codes → swaps !! m = Some p)
              ∧ descs !! p
                = description (formulations_for_group (formulations_of data) codes))
    ∧ (∀ m, m ∉ mjoin out → swaps !! m = None ∧ descs !! m = None).
Proof.
  intros Hall. destruct (read_file_ok data Hall) as (out & _ & Hc & Hread).
  assert ((group_with data <$> out).*1 = out) as Hfst.
  { rewrite <-list_fmap_compose. apply list_fmap_id. }
  destruct (add_groups_spec (group_with data <$> out) ∅ ∅)
    as (swaps & descs & Hrun & Hgroups & Hrest).
  { rewrite Hfst. intros codes Hin. by apply Hc. }
  { rewrite Hfst. apply Hc. }
  exists out, swaps, descs. split_and!; [done|done| | |].
  - unfold get_formulation_swaps. by rewrite Hread.
  - intros codes Hin.
    destruct (Hgroups codes (formulations_for_group (formulations_of data) codes))
      as (p & Hp & Hsw & Hds).
    { apply list_elem_of_fmap. by exists codes. }
    exists p. split_and!; [done..|]. rewrite Hds, lookup_empty.
    by destruct (description _).
  - intros m Hm. rewrite Hfst in Hrest. destruct (Hrest m Hm) as [-> ->].
    by rewrite !lookup_empty.
Qed.

(** The swaps map sends each vertex to the smallest code connected to it and
    has no other entry. *)
Lemma swaps_primary data swaps descs m p :
  get_formulation_swaps data = Ok (swaps, descs) →
  swaps !! m = Some p ↔ primary_of (code_pairs_of data) m p.
Proof.
  intros Hget. pose proof (get_formulation_swaps_Ok _ _ _ Hget) as Hall.
  destruct (get_formulation_swaps_spec data Hall)
    as (out & swaps' & descs' & (Hcomp & Hcov & Hnd) & _ & Hget' & Hgroups & Hrest).
  rewrite Hget in Hget'. injection Hget' as <- <-.
  split.
  - intros Hm.
    destruct (decide (m ∈ mjoin out)) as [Hin|Hout].
    2:{ destruct (Hrest m Hout) as [Hnone _]. congruence. }
    apply list_elem_of_join in Hin as (codes & Hmc & Hcodes).
    destruct (Hgroups _ Hcodes) as (p' & [Hp' Hle] & Hsw & _).
    rewrite (Hsw m Hmc) in Hm. injection Hm as ->.
    destruct (Hcomp _ Hcodes) as [_ Hcls].
    destruct (Hcls m Hmc) as [Hv Hconn].
    split_and!; [done|by apply Hconn|].
    intros y Hy. by apply Hle, Hconn.
  - intros (Hv & Hconn & Hle).
    destruct (Hcov m Hv) as (codes & Hcodes & Hmc).
    destruct (Hgroups _ Hcodes) as (p' & [Hp' Hle'] & Hsw & _).
    rewrite (Hsw m Hmc). f_equal.
    destruct (Hcomp _ Hcodes) as [_ Hcls].
    destruct (Hcls m Hmc) as [_ Hiff].
    apply (anti_symm String.le).
    + apply Hle'. by apply Hiff.
    + apply Hle. by apply Hiff.
Qed.

Lemma primary_of_same_pairs pairs pairs' m p :
  (∀ e, e ∈ pairs ↔ e ∈ pairs') → primary_of pairs m p → primary_of pairs' m p.
Proof.
  intros Hiff (Hv & Hc & Hle). split_and!.
  - eapply vertex_mono; [|done]. intros e. apply Hiff.
  - eapply connected_mono; [|done]. intros e. apply Hiff.
  - intros y Hy. apply Hle. eapply connected_mono; [|done]. intros e. apply Hiff.
Qed.

Lemma primary_of_fixed pairs m p : primary_of pairs m p → primary_of pairs p p.
Proof.
  intros (Hv & Hc & Hle). split_and!.
  - by destruct (connected_vertex _ _ _ Hc) as [<-|[_ ?]].
  - reflexivity.
  - intros y Hy. apply Hle. by etrans.
Qed.

(** C7: only the rows whose trimmed flag is exactly [Y] are considered (the
    loader returns what it returns on those rows alone), and an accepted row
    whose code or alternative code does not classify to itself, or whose two
    codes are equal, makes the whole load raise; when no accepted row is like
    that the load succeeds. *)
Theorem swaps_file_validation (data : list Row) :
  read_formulation_swaps_file data
  = read_formulation_swaps_file (filter accepted data)
  ∧ get_formulation_swaps data = get_formulation_swaps (filter accepted data)
  ∧ (∀ row, row ∈ data → accepted row →
       ¬ self_generic (strip (Code row))
       ∨ ¬ self_generic (strip (Alternative_code row))
       ∨ strip (Code row) = strip (Alternative_code row) →
       read_formulation_swaps_file data = Raise AssertionError
       ∧ get_formulation_swaps data = Raise AssertionError)
  ∧ ((∀ row, row ∈ data → accepted row → well_formed row) →
       ∃ groups swaps descs,
         read_formulation_swaps_file data = Ok groups
         ∧ get_formulation_swaps data = Ok (swaps, descs)).
Proof.
  assert (read_formulation_swaps_file data
          = read_formulation_swaps_file (filter accepted data)) as Hread.
  { unfold read_formulation_swaps_file. by rewrite read_rows_filter. }
  split_and!; [done|unfold get_formulation_swaps; by rewrite Hread| |].
  - intros row Hin Hacc Hbad.
    assert (read_formulation_swaps_file data = Raise AssertionError) as Hfail.
    { apply read_file_fail, Exists_exists. exists row. split_and!; [done..|].
      intros (Hc & Ha & Hne). destruct Hbad as [?|[?|?]]; done. }
    split; [done|]. unfold get_formulation_swaps. by rewrite Hfail.
  - intros Hall. apply Forall_forall in Hall.
    destruct (get_formulation_swaps_spec data Hall)
      as (out & swaps & descs & _ & ? & ? & _).
    eauto.
Qed.

(** C5: the primary code of every group the loader yields is the smallest
    member of the group, the first of the sorted codes; the swaps map sends
    every member of the group, the primary code included, to it; and the
    swaps map is the same for every reordering of the rows. *)
Theorem primary_code_smallest data groups swaps descs :
  read_formulation_swaps_file data = Ok groups →
  get_formulation_swaps data = Ok (swaps, descs) →
  (∀ codes forms, (codes, forms) ∈ groups →
     ∃ primary,
       smallest codes primary
       ∧ head (sorted codes) = Some primary
       ∧ swaps !! primary = Some primary
       ∧ ∀ m, m ∈ codes → swaps !! m = Some primary)
  ∧ (∀ data', data' ≡ₚ data →
       ∃ descs', get_formulation_swaps data' = Ok (swaps, descs')).
Proof.
  intros Hread Hget. pose proof (get_formulation_swaps_Ok _ _ _ Hget) as Hall.
  destruct (get_formulation_swaps_spec data Hall)
    as (out & swaps' & descs' & Hc & Hread' & Hget' & Hgroups & _).
  rewrite Hget in Hget'. injection Hget' as <- <-.
  rewrite Hread in Hread'. injection Hread' as ->.
  split.
  - intros codes forms (codes' & [= -> ->] & Hin)%list_elem_of_fmap.
    destruct (Hgroups _ Hin) as (p & Hp & Hsw & _).
    exists p. split_and!; [done| |apply Hsw, Hp|done].
    destruct (sorted_cons codes') as (p' & rest & Hs).
    { intros ->. destruct Hp as [Hp _]. by apply elem_of_nil in Hp. }
    rewrite Hs. simpl. f_equal.
    eapply smallest_unique; [|by eapply sorted_head|done]. done.
  - intros data' Hperm.
    assert (Forall (fun row => accepted row → well_formed row) data') as Hall'.
    { by rewrite Hperm. }
    destruct (get_formulation_swaps_spec data' Hall')
      as (out' & swaps' & descs' & _ & _ & Hget' & _).
    exists descs'. rewrite Hget'. do 2 f_equal.
    assert (∀ e, e ∈ code_pairs_of data' ↔ e ∈ code_pairs_of data) as Hiff.
    { intros e. unfold code_pairs_of. by rewrite Hperm. }
    apply map_eq. intros m.
    destruct (swaps' !! m) as [p|] eqn:Hm'.
    + symmetry. apply (swaps_primary _ _ _ _ _ Hget).
      eapply primary_of_same_pairs; [done|].
      by apply (swaps_primary _ _ _ _ _ Hget').
    + destruct (swaps !! m) as [p|] eqn:Hm; [|done].
      rewrite <-Hm'. apply (swaps_primary _ _ _ _ _ Hget').
      eapply primary_of_same_pairs; [intros e; symmetry; apply Hiff|].
      by apply (swaps_primary _ _ _ _ _ Hget).
Qed.

(** C6, amended: the labels of a group are the distinct non-empty labels that
    the last accepted row mentioning each member attaches to it (a later row
    replaces the label an earlier row gave to the same code); when there are
    two or more, the description of the primary code is these labels sorted
    and joined by [ / ], and otherwise the primary code has no description. *)
Theorem group_description data groups swaps descs codes forms :
  read_formulation_swaps_file data = Ok groups →
  get_formulation_swaps data = Ok (swaps, descs) →
  (codes, forms) ∈ groups →
  NoDup forms
  ∧ (∀ label, label ∈ forms ↔
       label ≠ "" ∧ ∃ m, m ∈ codes ∧ last_label data m label)
  ∧ (∃ primary,
       smallest codes primary
       ∧ descs !! primary
         = if (1 <? length forms)%nat
           then Some (join " / " (sorted forms)) else None)
  ∧ description ["Tab"] = None
  ∧ description ["Tab"; "Cap"] = Some "Cap / Tab".
Proof.
  intros Hread Hget Hin. pose proof (get_formulation_swaps_Ok _ _ _ Hget) as Hall.
  destruct (get_formulation_swaps_spec data Hall)
    as (out & swaps' & descs' & Hc & Hread' & Hget' & Hgroups & _).
  rewrite Hget in Hget'. injection Hget' as <- <-.
  rewrite Hread in Hread'. injection Hread' as ->.
  apply list_elem_of_fmap in Hin as (codes' & [= -> ->] & Hin).
  split_and!.
  - apply formulations_for_group_NoDup.
  - intros label. rewrite elem_of_formulations_for_group.
    by setoid_rewrite formulations_of_lookup.
  - destruct (Hgroups _ Hin) as (p & Hp & _ & Hds). by exists p.
  - by vm_compute.
  - by vm_compute.
Qed.

(** ** The substitution set builder *)

Lemma add_bnf_code_key swaps ps c :
  add_bnf_code swaps ps c
  = match grouping_key swaps c with
    | Some k => append_presentation k c ps
    | None => ps
    end.
Proof.
  unfold add_bnf_code, grouping_key.
  destruct (generic_equivalent_for_bnf_code c); [|done].
  by case_bool_decide.
Qed.

Lemma add_bnf_code_NoDup swaps ps c :
  NoDup (odict_keys ps) → NoDup (odict_keys (add_bnf_code swaps ps c)).
Proof.
  intros Hnd. rewrite add_bnf_code_key. destruct (grouping_key swaps c); [|done].
  by apply odict_set_NoDup.
Qed.

Lemma presentation_sets_NoDup swaps ps bnf_codes :
  NoDup (odict_keys ps) →
  NoDup (odict_keys (foldl (add_bnf_code swaps) ps bnf_codes)).
Proof.
  revert ps. induction bnf_codes as [|c cs IH]; intros ps Hnd; simpl; [done|].
  by apply IH, add_bnf_code_NoDup.
Qed.

Lemma presentation_sets_get swaps ps bnf_codes k :
  odict_get k (foldl (add_bnf_code swaps) ps bnf_codes)
  = match odict_get k ps, filed_under swaps k bnf_codes with
    | Some l, new => Some (l ++ new)
    | None, [] => None
    | None, new => Some new
    end.
Proof.
  revert ps. induction bnf_codes as [|c cs IH]; intros ps; cbn [foldl].
  - unfold filed_under. rewrite filter_nil.
    destruct (odict_get k ps); [by rewrite app_nil_r|done].
  - rewrite IH, add_bnf_code_key. unfold filed_under.
    destruct (decide (grouping_key swaps c = Some k)) as [Hk|Hk].
    + rewrite filter_cons_True by done. rewrite Hk.
      unfold append_presentation. rewrite odict_get_set, decide_True by done.
      destruct (odict_get k ps) as [l|]; simpl.
      * by rewrite <-(assoc_L (++)).
      * done.
    + rewrite filter_cons_False by done.
      destruct (grouping_key swaps c) as [k'|]; [|done].
      unfold append_presentation. rewrite odict_get_set, decide_False; [done|].
      congruence.
Qed.

Lemma builder_unfold names data bnf_codes swaps descs :
  get_formulation_swaps data = Ok (swaps, descs) →
  get_substitution_sets_from_bnf_codes names data bnf_codes
  = let presentation_sets := foldl (add_bnf_code swaps) [] bnf_codes in
    let names' := get_names_for_bnf_codes names (odict_keys presentation_sets) in
    Ok ((fun '(code, presentations) =>
           {| id := code;
              name := Some (default "unknown" (names' !! code));
              presentations := sorted presentations;
              formulation_swaps := descs !! code |})
        <$> filter (fun item => 1 < length item.2) presentation_sets).
Proof.
  intros Hget. unfold get_substitution_sets_from_bnf_codes. by rewrite Hget.
Qed.

Lemma builder_elem names data bnf_codes swaps descs sets s :
  get_formulation_swaps data = Ok (swaps, descs) →
  get_substitution_sets_from_bnf_codes names data bnf_codes = Ok sets →
  s ∈ sets ↔
  (1 < length (filed_under swaps (id s) bnf_codes)
   ∧ s = {| id := id s;
            name := Some (default "unknown"
                      (get_names_for_bnf_codes names
                         (odict_keys (foldl (add_bnf_code swaps) [] bnf_codes))
                       !! id s));
            presentations := sorted (filed_under swaps (id s) bnf_codes);
            formulation_swaps := descs !! id s |}).
Proof.
  intros Hget. rewrite (builder_unfold _ _ _ _ _ Hget). cbv zeta.
  intros [= <-]. rewrite list_elem_of_fmap.
  set (ps := foldl (add_bnf_code swaps) [] bnf_codes).
  assert (∀ k l, (k, l) ∈ ps ↔ l ≠ [] ∧ l = filed_under swaps k bnf_codes) as Hps.
  { intros k l.
    assert (odict_get k ps = Some l ↔ l ≠ [] ∧ l = filed_under swaps k bnf_codes)
      as <-.
    { unfold ps. rewrite presentation_sets_get. simpl.
      destruct (filed_under swaps k bnf_codes) as [|c cs].
      - split; [done|]. by intros [? ->].
      - split; [by intros [= <-]|]. by intros [_ ->]. }
    split; [|apply odict_get_Some_elem].
    apply odict_elem_get. apply presentation_sets_NoDup. constructor. }
  split.
  - intros ([k l] & -> & [Hlen Hin]%list_elem_of_filter).
    apply Hps in Hin as [_ ->]. split; [exact Hlen|reflexivity].
  - intros [Hlen Hs]. exists (id s, filed_under swaps (id s) bnf_codes).
    split; [exact Hs|]. apply list_elem_of_filter. split; [done|].
    apply Hps. split; [|done]. intros Hnil. rewrite Hnil in Hlen. simpl in Hlen. lia.
Qed.

Lemma occurrences_Permutation c l l' : l ≡ₚ l' → occurrences c l = occurrences c l'.
Proof. intros Hp. unfold occurrences. by rewrite Hp. Qed.

Lemma occurrences_filed_under swaps k bnf_codes c :
  grouping_key swaps c = Some k →
  occurrences c (filed_under swaps k bnf_codes) = occurrences c bnf_codes.
Proof.
  intros Hk. unfold occurrences, filed_under.
  induction bnf_codes as [|x xs IH]; [done|].
  destruct (decide (grouping_key swaps x = Some k)) as [Hx|Hx].
  - rewrite (filter_cons_True (fun c0 => grouping_key swaps c0 = Some k)) by done.
    destruct (decide (x = c)) as [->|Hne].
    + rewrite !(filter_cons_True (fun y => y = c)) by done. simpl. by rewrite IH.
    + by rewrite !(filter_cons_False (fun y => y = c)) by done.
  - rewrite (filter_cons_False (fun c0 => grouping_key swaps c0 = Some k)) by done.
    rewrite (filter_cons_False (fun y => y = c)); [done|]. by intros ->.
Qed.

Lemma occurrences_le_length c l : occurrences c l ≤ length l.
Proof. unfold occurrences. apply length_filter. Qed.

(** C9: every set of the output has at least two presentations; its
    presentations are, sorted, all the input codes filed under its id, each as
    often as it occurs in the input; and a code that occurs twice in the input
    occurs twice in the presentations of its set. *)
Theorem substitution_sets_presentations names data bnf_codes swaps descs sets :
  get_formulation_swaps data = Ok (swaps, descs) →
  get_substitution_sets_from_bnf_codes names data bnf_codes = Ok sets →
  (∀ s, s ∈ sets →
     2 ≤ length (presentations s)
     ∧ presentations s = sorted (filed_under swaps (id s) bnf_codes)
     ∧ ∀ c, grouping_key swaps c = Some (id s) →
            occurrences c (presentations s) = occurrences c bnf_codes)
  ∧ (∀ c k, grouping_key swaps c = Some k → 2 ≤ occurrences c bnf_codes →
       ∃ s, s ∈ sets ∧ id s = k
            ∧ occurrences c (presentations s) = occurrences c bnf_codes).
Proof.
  intros Hget Hsets. split.
  - intros s [Hlen Hs]%(builder_elem _ _ _ _ _ _ _ Hget Hsets).
    assert (presentations s = sorted (filed_under swaps (id s) bnf_codes)) as Hp.
    { by rewrite Hs at 1. }
    split_and!; [|done|].
    + rewrite Hp, sorted_Permutation. lia.
    + intros c Hc. rewrite Hp.
      rewrite (occurrences_Permutation _ _ _ (sorted_Permutation _)).
      by apply occurrences_filed_under.
  - intros c k Hk Hocc.
    set (s := {| id := k;
                 name := Some (default "unknown"
                           (get_names_for_bnf_codes names
                              (odict_keys (foldl (add_bnf_code swaps) [] bnf_codes))
                            !! k));
                 presentations := sorted (filed_under swaps k bnf_codes);
                 formulation_swaps := descs !! k |}).
    exists s. split_and!; [|done|].
    + apply (builder_elem _ _ _ _ _ _ _ Hget Hsets). split; [|done]. simpl.
      pose proof (occurrences_le_length c (filed_under swaps k bnf_codes)).
      rewrite occurrences_filed_under in * by done. lia.
    + simpl. rewrite (occurrences_Permutation _ _ _ (sorted_Permutation _)).
      by apply occurrences_filed_under.
Qed.

Lemma substitution_sets_presentations_witness :
  ∃ s, s ∈ [ {| id := "040702040AAACAC"; name := Some "unknown";
                presentations := ["040702040AAACAC"; "040702040AAACAC";
                                  "040702040AAAHAH"];
                formulation_swaps := Some "Cap / Tab" |} ]
       ∧ id s = "040702040AAACAC"
       ∧ occurrences "040702040AAACAC" (presentations s)
         = occurrences "040702040AAACAC"
             ["040702040AAACAC"; "040702040AAAHAH"; "040702040AAACAC"].
Proof.
  refine (proj2 (substitution_sets_presentations (fun _ => ∅) [tramadol_row]
            ["040702040AAACAC"; "040702040AAAHAH"; "040702040AAACAC"]
            {[ "040702040AAACAC" := "040702040AAACAC";
               "040702040AAAHAH" := "040702040AAACAC" ]}
            {[ "040702040AAACAC" := "Cap / Tab" ]} _ _ _)
          "040702040AAACAC" "040702040AAACAC" _ _).
  - vm_compute. reflexivity.
  - vm_compute. reflexivity.
  - vm_compute. reflexivity.
  - vm_compute. lia.
Defined.

(** ** The end-to-end example *)

Lemma get_formulation_swaps_filter data :
  get_formulation_swaps data = get_formulation_swaps (filter accepted data).
Proof.
  unfold get_formulation_swaps, read_formulation_swaps_file.
  by rewrite read_rows_filter.
Qed.

(** C1: with a swaps file whose only accepted row pairs the tablet code
    040702040AAACAC with the capsule code 040702040AAAHAH, labelled Tab and
    Cap, the builder returns for these two codes exactly one set, with the
    tablet code as id, the two codes sorted as presentations, and the
    description Cap / Tab. *)
Theorem tramadol_end_to_end names data row :
  filter accepted data = [row] →
  strip (Code row) = "040702040AAACAC" →
  strip (Alternative_code row) = "040702040AAAHAH" →
  strip (Formulation row) = "Tab" →
  strip (Alternative_formulation row) = "Cap" →
  get_substitution_sets_from_bnf_codes names data
    ["040702040AAACAC"; "040702040AAAHAH"]
  = Ok [ {| id := "040702040AAACAC";
            name := Some (default "unknown"
                      (get_names_for_bnf_codes names ["040702040AAACAC"]
                       !! "040702040AAACAC"));
            presentations := ["040702040AAACAC"; "040702040AAAHAH"];
            formulation_swaps := Some "Cap / Tab" |} ].
Proof.
  intros Hrows Hcode Halt Hform Haltform.
  assert (accepted row) as Hacc.
  { assert (row ∈ filter accepted data) as Hin by (rewrite Hrows; left).
    by apply list_elem_of_filter in Hin as [? _]. }
  assert (well_formed row) as Hwf.
  { unfold well_formed, self_generic. rewrite Hcode, Halt. by vm_compute. }
  assert (get_formulation_swaps data
          = Ok ({[ "040702040AAACAC" := "040702040AAACAC";
                   "040702040AAAHAH" := "040702040AAACAC" ]},
                {[ "040702040AAACAC" := "Cap / Tab" ]})) as Hget.
  { rewrite get_formulation_swaps_filter, Hrows.
    unfold get_formulation_swaps, read_formulation_swaps_file.
    cbn [for_each]. rewrite read_row_accept by done. cbn [bind].
    unfold pair_of, label_row. rewrite Hcode, Halt, Hform, Haltform.
    vm_compute. reflexivity. }
  rewrite (builder_unfold _ _ _ _ _ Hget). cbv zeta.
  assert (foldl (add_bnf_code {[ "040702040AAACAC" := "040702040AAACAC";
                                "040702040AAAHAH" := "040702040AAACAC" ]})
            [] ["040702040AAACAC"; "040702040AAAHAH"]
          = [("040702040AAACAC", ["040702040AAACAC"; "040702040AAAHAH"])]) as ->.
  { vm_compute. reflexivity. }
  replace (filter (fun item : string * list string => 1 < length item.2)
             [("040702040AAACAC", ["040702040AAACAC"; "040702040AAAHAH"])])
    with [("040702040AAACAC", ["040702040AAACAC"; "040702040AAAHAH"])]
    by reflexivity.
  rewrite fmap_cons, fmap_nil.
  replace (sorted ["040702040AAACAC"; "040702040AAAHAH"])
    with ["040702040AAACAC"; "040702040AAAHAH"] by (vm_compute; reflexivity).
  replace (({[ "040702040AAACAC" := "Cap / Tab" ]} : gmap string string)
           !! "040702040AAACAC")
    with (Some "Cap / Tab") by (vm_compute; reflexivity).
  reflexivity.
Qed.

Lemma tramadol_end_to_end_witness :
  get_substitution_sets_from_bnf_codes (fun _ => ∅)
    [ {| Code := "040702040AAAEAE"; Alternative_code := "040702040AAAJAJ";
         Formulation := "Tab"; Alternative_formulation := "Cap";
         Really_equivalent := "N" |};
      {| Code := " 040702040AAACAC"; Alternative_code := "040702040AAAHAH ";
         Formulation := "Tab"; Alternative_formulation := "Cap";
         Really_equivalent := "Y " |} ]
    ["040702040AAACAC"; "040702040AAAHAH"]
  = Ok [ {| id := "040702040AAACAC";
            name := Some (default "unknown"
                      (get_names_for_bnf_codes (fun _ => ∅) ["040702040AAACAC"]
                       !! "040702040AAACAC"));
            presentations := ["040702040AAACAC"; "040702040AAAHAH"];
            formulation_swaps := Some "Cap / Tab" |} ].
Proof.
  apply (tramadol_end_to_end (fun _ => ∅) _
           {| Code := " 040702040AAACAC"; Alternative_code := "040702040AAAHAH ";
              Formulation := "Tab"; Alternative_formulation := "Cap";
              Really_equivalent := "Y " |});
    vm_compute; reflexivity.
Defined.

(** ** Remapping through the swaps map *)

(** C10: in the swaps map the smallest code of every group the loader yields
    maps to itself, as every member of the group maps to it; so every value of
    the map maps to itself, [swaps.get(x, x)] applied twice is
    [swaps.get(x, x)] applied once, and the id of every set the builder
    returns is a fixed point of it. *)
Theorem swaps_idempotent data swaps descs :
  get_formulation_swaps data = Ok (swaps, descs) →
  (∀ groups codes forms,
     read_formulation_swaps_file data = Ok groups →
     (codes, forms) ∈ groups →
     ∃ primary,
       smallest codes primary
       ∧ swaps !! primary = Some primary
       ∧ ∀ m, m ∈ codes → swaps !! m = Some primary)
  ∧ (∀ g p, swaps !! g = Some p → swaps !! p = Some p)
  ∧ (∀ g, remap swaps (remap swaps g) = remap swaps g)
  ∧ (∀ names bnf_codes sets s,
       get_substitution_sets_from_bnf_codes names data bnf_codes = Ok sets →
       s ∈ sets → remap swaps (id s) = id s).
Proof.
  intros Hget.
  assert (∀ g p, swaps !! g = Some p → swaps !! p = Some p) as Hfix.
  { intros g p Hg. apply (swaps_primary _ _ _ _ _ Hget) in Hg.
    apply (swaps_primary _ _ _ _ _ Hget). by eapply primary_of_fixed. }
  assert (∀ g, remap swaps (remap swaps g) = remap swaps g) as Hidem.
  { intros g. unfold remap. destruct (swaps !! g) as [p|] eqn:Hg; simpl.
    - by rewrite (Hfix _ _ Hg).
    - by rewrite Hg. }
  split_and!; [|done..|].
  - intros groups codes forms Hread Hin.
    pose proof (get_formulation_swaps_Ok _ _ _ Hget) as Hall.
    destruct (get_formulation_swaps_spec data Hall)
      as (out & swaps' & descs' & _ & Hread' & Hget' & Hgroups & _).
    rewrite Hget in Hget'. injection Hget' as <- <-.
    rewrite Hread in Hread'. injection Hread' as ->.
    apply list_elem_of_fmap in Hin as (codes' & [= -> ->] & Hin).
    destruct (Hgroups _ Hin) as (p & Hp & Hsw & _).
    exists p. split_and!; [done|apply Hsw, Hp|done].
  - intros names bnf_codes sets s Hsets
      [Hlen _]%(builder_elem _ _ _ _ _ _ _ Hget Hsets).
    destruct (filed_under swaps (id s) bnf_codes) as [|c cs] eqn:Hf;
      [simpl in Hlen; lia|].
    assert (c ∈ filed_under swaps (id s) bnf_codes) as Hc by (rewrite Hf; left).
    apply list_elem_of_filter in Hc as [Hkey _]. unfold grouping_key in Hkey.
    destruct (generic_equivalent_for_bnf_code c) as [g|]; [|done].
    case_bool_decide; [done|]. injection Hkey as <-. apply Hidem.
Qed.

Lemma swaps_idempotent_witness :
  (∃ primary,
     smallest ["040702040AAACAC"; "040702040AAAHAH"] primary
     ∧ ({[ "040702040AAACAC" := "040702040AAACAC";
           "040702040AAAHAH" := "040702040AAACAC" ]} : gmap string string)
         !! primary = Some primary
     ∧ ∀ m, m ∈ ["040702040AAACAC"; "040702040AAAHAH"] →
         ({[ "040702040AAACAC" := "040702040AAACAC";
             "040702040AAAHAH" := "040702040AAACAC" ]} : gmap string string)
           !! m = Some primary)
  ∧ remap {[ "040702040AAACAC" := "040702040AAACAC";
             "040702040AAAHAH" := "040702040AAACAC" ]}
      (remap {[ "040702040AAACAC" := "040702040AAACAC";
                "040702040AAAHAH" := "040702040AAACAC" ]} "040702040AAAHAH")
    = remap {[ "040702040AAACAC" := "040702040AAACAC";
               "040702040AAAHAH" := "040702040AAACAC" ]} "040702040AAAHAH".
Proof.
  assert (get_formulation_swaps [tramadol_row]
          = Ok ({[ "040702040AAACAC" := "040702040AAACAC";
                   "040702040AAAHAH" := "040702040AAACAC" ]},
                {[ "040702040AAACAC" := "Cap / Tab" ]})) as Hget
    by (vm_compute; reflexivity).
  split.
  - refine (proj1 (swaps_idempotent [tramadol_row] _ _ Hget)
              [(["040702040AAACAC"; "040702040AAAHAH"], ["Tab"; "Cap"])]
              _ ["Tab"; "Cap"] _ _).
    + vm_compute. reflexivity.
    + left.
  - exact (proj1 (proj2 (proj2 (swaps_idempotent [tramadol_row] _ _ Hget))) _).
Defined.

Lemma primary_code_smallest_witness :
  ∃ descs',
    get_formulation_swaps [tramadol_200_row; tramadol_row]
    = Ok ({[ "040702040AAACAC" := "040702040AAACAC";
             "040702040AAAHAH" := "040702040AAACAC";
             "040702040AAAEAE" := "040702040AAAEAE";
             "040702040AAAJAJ" := "040702040AAAEAE" ]}, descs').
Proof.
  refine (proj2 (primary_code_smallest [tramadol_row; tramadol_200_row] _ _
                   {[ "040702040AAACAC" := "Cap / Tab";
                      "040702040AAAEAE" := "Cap / Tab" ]} _ _)
            [tramadol_200_row; tramadol_row] _).
  - vm_compute. reflexivity.
  - vm_compute. reflexivity.
  - apply Permutation_swap.
Defined.

Lemma group_description_witness :
  ∃ primary,
    smallest ["040702040AAACAC"; "040702040AAAHAH"] primary
    ∧ ({[ "040702040AAACAC" := "Cap / Tab" ]} : gmap string string) !! primary
      = if (1 <? length ["Tab"; "Cap"])%nat
        then Some (join " / " (sorted ["Tab"; "Cap"])) else None.
Proof.
  refine (proj1 (proj2 (proj2 (group_description [tramadol_row] _
            {[ "040702040AAACAC" := "040702040AAACAC";
               "040702040AAAHAH" := "040702040AAACAC" ]}
            {[ "040702040AAACAC" := "Cap / Tab" ]}
            ["040702040AAACAC"; "040702040AAAHAH"] ["Tab"; "Cap"] _ _ _)))).
  - vm_compute. reflexivity.
  - vm_compute. reflexivity.
  - left.
Defined.

(** C6 fails when two accepted rows give one code two labels: the second row
    replaces [Tab] by [Tabs] for the code 040702040AAACAC, and the description
    is Cap / Tabs, not Cap / Tab / Tabs. *)
Lemma description_from_any_row_fails :
  ¬ description_from_any_row
  ∧ (∃ swaps descs,
       get_formulation_swaps [tramadol_row; tramadol_tabs_row] = Ok (swaps, descs)
       ∧ descs !! "040702040AAACAC" = Some "Cap / Tabs")
  ∧ any_label [tramadol_row; tramadol_tabs_row] "040702040AAACAC" "Tab".
Proof.
  assert (any_label [tramadol_row; tramadol_tabs_row] "040702040AAACAC" "Tab")
    as Htab.
  { exists tramadol_row. split_and!; [left|by vm_compute|left; by vm_compute]. }
  split_and!; [|eexists _, _; split; [vm_compute; reflexivity|by vm_compute]|done].
  intros Hclaim.
  specialize (Hclaim [tramadol_row; tramadol_tabs_row] _ _ _
                ["040702040AAACAC"; "040702040AAAHAH"; "040702040AAAEAE"] _
                "040702040AAACAC" ["Tab"; "Cap"; "Tabs"]
                ltac:(vm_compute; reflexivity) ltac:(vm_compute; reflexivity)
                ltac:(left)).
  assert (description ["Tab"; "Cap"; "Tabs"] = Some "Cap / Tab / Tabs") as Hd
    by by vm_compute.
  rewrite Hd in Hclaim.
  assert (Some "Cap / Tabs" = Some "Cap / Tab / Tabs") as Habs; [|discriminate].
  rewrite <-Hclaim; [by vm_compute| | |].
  - split; [left|]. intros m Hm.
    repeat (apply elem_of_cons in Hm as [->|Hm]); try (by vm_compute).
    by apply elem_of_nil in Hm.
  - repeat constructor; intros Hin;
      repeat (apply elem_of_cons in Hin as [?|Hin]); try discriminate;
      by apply elem_of_nil in Hin.
  - intros label. split.
    + intros Hin. repeat (apply elem_of_cons in Hin as [->|Hin]).
      * split; [done|]. exists "040702040AAACAC". split; [left|done].
      * split; [done|]. exists "040702040AAAHAH". split; [right; left|].
        exists tramadol_row. split_and!; [left|by vm_compute|right; by vm_compute].
      * split; [done|]. exists "040702040AAACAC". split; [left|].
        exists tramadol_tabs_row.
        split_and!; [right; left|by vm_compute|left; by vm_compute].
      * by apply elem_of_nil in Hin.
    + intros (_ & m & _ & row & Hrow & _ & Hl).
      repeat (apply elem_of_cons in Hrow as [->|Hrow]);
        [| |by apply elem_of_nil in Hrow].
      * destruct Hl as [[_ ->]|[_ ->]]; vm_compute; [left|right; left].
      * destruct Hl as [[_ ->]|[_ ->]]; vm_compute; [right; right; left|right; left].
Qed.

(** * Further properties of the module *)

(** ** The code classifier: the shape of a generic code *)

Lemma length_15_inv (c : string) :
  String.length c = 15 →
  ∃ c1 c2 c3 c4 c5 c6 c7 c8 c9 c10 c11 c12 c13 c14 c15,
    c = String c1 (String c2 (String c3 (String c4 (String c5 (String c6
        (String c7 (String c8 (String c9 (String c10 (String c11 (String c12
        (String c13 (String c14 (String c15 "")))))))))))))).
Proof.
  intros Hlen.
  do 15 (destruct c as [|? c]; [discriminate Hlen|]).
  destruct c; [|discriminate Hlen]. by repeat eexists.
Qed.

Lemma generic_equivalent_Some (c g : string) :
  generic_equivalent_for_bnf_code c = Some g →
  String.length c = 15
  ∧ re_match EXCLUSIONS_RE c = false
  ∧ (slice 13 15 c ≠ "A0" ∨ contains (slice 0 9 c) GENERIC_SUB_PARAGRAPHS = true)
  ∧ g = slice 0 9 c +:+ "AA" +:+ slice 13 15 c +:+ slice 13 15 c.
Proof.
  unfold generic_equivalent_for_bnf_code.
  destruct (Nat.eqb_spec (String.length c) 15) as [Hlen|]; [|done]. simpl.
  destruct (re_match EXCLUSIONS_RE c); [done|].
  case_bool_decide as Hsuf; simpl.
  - destruct (contains _ _) eqn:Hc; [|done]. intros [= <-]. auto.
  - intros [= <-]. auto.
Qed.

(** X1: a generic equivalent has 15 characters: the first nine characters of
    the code it is derived from, then [AA], then the last two characters of
    that code twice. *)
Theorem generic_equivalent_shape (c g : string) :
  generic_equivalent_for_bnf_code c = Some g →
  String.length g = 15
  ∧ slice 0 9 g = slice 0 9 c
  ∧ slice 9 11 g = "AA"
  ∧ slice 11 13 g = slice 13 15 c
  ∧ slice 13 15 g = slice 13 15 c.
Proof.
  intros (Hlen & _ & _ & ->)%generic_equivalent_Some.
  destruct (length_15_inv c Hlen)
    as (c1&c2&c3&c4&c5&c6&c7&c8&c9&c10&c11&c12&c13&c14&c15&->).
  by vm_compute.
Qed.

Lemma generic_equivalent_shape_witness :
  String.length "0407020B0AAACAC" = 15
  ∧ slice 0 9 "0407020B0AAACAC" = slice 0 9 "0407020B0BBACAC"
  ∧ slice 9 11 "0407020B0AAACAC" = "AA"
  ∧ slice 11 13 "0407020B0AAACAC" = slice 13 15 "0407020B0BBACAC"
  ∧ slice 13 15 "0407020B0AAACAC" = slice 13 15 "0407020B0BBACAC".
Proof.
  apply (generic_equivalent_shape "0407020B0BBACAC" "0407020B0AAACAC").
  vm_compute. reflexivity.
Defined.

(** X2: classifying a generic equivalent again gives the same code, unless
    the exclusion pattern matches it, in which case it has no generic
    equivalent (the brand 1201010F0BBAAAA has the excluded generic
    1201010F0AAAAAA). *)
Theorem generic_equivalent_again (c g : string) :
  generic_equivalent_for_bnf_code c = Some g →
  generic_equivalent_for_bnf_code g
  = if re_match EXCLUSIONS_RE g then None else Some g.
Proof.
  intros (Hlen & _ & Hq & ->)%generic_equivalent_Some.
  destruct (length_15_inv c Hlen)
    as (c1&c2&c3&c4&c5&c6&c7&c8&c9&c10&c11&c12&c13&c14&c15&->).
  unfold generic_equivalent_for_bnf_code at 1.
  match goal with |- context [re_match EXCLUSIONS_RE ?g] =>
    remember (re_match EXCLUSIONS_RE g) as excluded end.
  change (String.length _ =? 15)%nat with true. simpl negb. cbv iota.
  destruct excluded; [done|].
  change (slice 13 15 _) with (String c14 (String c15 "")) in *.
  change (slice 0 9 _) with
    (String c1 (String c2 (String c3 (String c4 (String c5 (String c6
       (String c7 (String c8 (String c9 ""))))))))) in *.
  destruct Hq as [Hsuf|Hsub].
  - by rewrite bool_decide_eq_false_2.
  - rewrite Hsub, orb_true_r. done.
Qed.

Lemma generic_equivalent_again_witness :
  generic_equivalent_for_bnf_code "1201010F0AAAAAA"
  = if re_match EXCLUSIONS_RE "1201010F0AAAAAA" then None
    else Some "1201010F0AAAAAA".
Proof.
  apply (generic_equivalent_again "1201010F0BBAAAA" "1201010F0AAAAAA").
  vm_compute. reflexivity.
Defined.

(** The generic equivalent of a brand can be an excluded code. *)
Example generic_equivalent_excluded_generic :
  generic_equivalent_for_bnf_code "1201010F0BBAAAA" = Some "1201010F0AAAAAA"
  ∧ generic_equivalent_for_bnf_code "1201010F0AAAAAA" = None.
Proof. by vm_compute. Qed.

(** ** The exclusion pattern, read without the pattern engine *)

Lemma lang_alternatives (rs : list regex) (s : string) :
  lang (alternatives rs) s ↔ ∃ r, r ∈ rs ∧ lang r s.
Proof.
  unfold alternatives. induction rs as [|r rs IH]; simpl.
  - split; [intros Hl; inversion Hl|].
    intros (r & Hin & _). by apply elem_of_nil in Hin.
  - split.
    + intros Hl. inversion Hl; subst.
      * exists r. split; [left|done].
      * apply IH in H2 as (r' & Hin & Hl'). exists r'. split; [by right|done].
    + intros (r' & [->|Hin]%elem_of_cons & Hl).
      * by apply lang_alt_l.
      * apply lang_alt_r, IH. eauto.
Qed.

Lemma string_app_assoc (s t u : string) : (s +:+ t) +:+ u = s +:+ (t +:+ u).
Proof.
  induction s as [|c s IH]; [done|].
  by rewrite !string_app_cons, IH.
Qed.

(** A pattern without wildcards agrees with itself only. *)
Lemma agrees_literal (p s : string) :
  agrees p s → Forall (fun a => a ≠ "."%char) (list_ascii_of_string p) → s = p.
Proof.
  revert s. induction p as [|a p IH]; intros [|c s]; simpl; try done.
  intros [Hc Hs] [Ha Hp]%Forall_cons. rewrite decide_False in Hc by done.
  subst. f_equal. by apply IH.
Qed.

(** X4: the exclusion pattern matches a code exactly when the code starts with
    0904010H0 or when its start agrees, character by character, with one of
    the nineteen fixed-width patterns (a dot standing for any character but a
    newline); what follows in the code plays no part. *)
Theorem exclusions_characterised (c : string) :
  re_match EXCLUSIONS_RE c = true ↔
  (∃ rest, c = "0904010H0" +:+ rest)
  ∨ (∃ p q rest, p ∈ fixed_width_exclusions ∧ c = q +:+ rest ∧ agrees p q).
Proof.
  assert (EXCLUSIONS_RE
          = alternatives ((chars <$> take 4 fixed_width_exclusions)
                          ++ Seq (chars "0904010H0") (Star Dot)
                          :: (chars <$> drop 4 fixed_width_exclusions))) as Hre
    by reflexivity.
  assert (∀ p, p ∈ fixed_width_exclusions ↔
               p ∈ take 4 fixed_width_exclusions
               ∨ p ∈ drop 4 fixed_width_exclusions) as Hsplit.
  { intros p. rewrite <-elem_of_app. by rewrite take_drop. }
  rewrite re_match_prefix, Hre. setoid_rewrite lang_alternatives. split.
  - intros (q & rest & -> & r & Hin & Hl).
    apply elem_of_app in Hin as [Hin|Hin%elem_of_cons].
    + apply list_elem_of_fmap in Hin as (p & -> & Hp). right.
      exists p, q, rest. split_and!; [apply Hsplit; by left|done|].
      by apply lang_chars.
    + destruct Hin as [->|Hin].
      * left. inversion Hl as [| | |? ? s1 s2 Hl1 Hl2| | | |]; subst.
        apply (lang_chars "0904010H0") in Hl1.
        assert (s1 = "0904010H0") as ->.
        { apply agrees_literal; [done|]. repeat constructor; discriminate. }
        exists (s2 +:+ rest). by rewrite string_app_assoc.
      * apply list_elem_of_fmap in Hin as (p & -> & Hp). right.
        exists p, q, rest. split_and!; [apply Hsplit; by right|done|].
        by apply lang_chars.
  - intros [[rest ->]|(p & q & rest & Hp & -> & Hag)].
    + exists "0904010H0", rest. split; [done|].
      exists (Seq (chars "0904010H0") (Star Dot)). split.
      * apply elem_of_app. right. left.
      * rewrite <-(string_app_empty_r "0904010H0"). constructor.
        -- by apply lang_chars.
        -- constructor.
    + exists q, rest. split; [done|]. exists (chars p). split.
      * apply Hsplit in Hp as [Hp|Hp]; apply elem_of_app; [left|right; right];
          apply list_elem_of_fmap; eauto.
      * by apply lang_chars.
Qed.

(** ** Codes that no exclusion can match *)

Lemma dead_not_nullable (r : regex) : dead r = true → nullable r = false.
Proof.
  induction r; simpl; try done.
  - intros [?|?]%orb_true_iff; [rewrite IHr1|rewrite IHr2, andb_false_r]; done.
  - intros [? ?]%andb_true_iff. rewrite IHr1, IHr2; done.
Qed.

Lemma dead_deriv (c : ascii) (r : regex) : dead r = true → dead (deriv c r) = true.
Proof.
  induction r as [| |c'| |r1 IH1 r2 IH2|r1 IH1 r2 IH2|r1 IH1]; simpl; try done.
  - intros [H1|H2]%orb_true_iff.
    + rewrite (dead_not_nullable _ H1). simpl. by rewrite IH1.
    + destruct (nullable r1); simpl; rewrite ?H2, ?IH2, ?orb_true_r; done.
  - intros [? ?]%andb_true_iff. rewrite IH1, IH2; done.
Qed.

Lemma re_match_dead (r : regex) (s : string) : dead r = true → re_match r s = false.
Proof.
  revert r. induction s as [|c s IH]; intros r Hd; simpl.
  - by rewrite (dead_not_nullable _ Hd).
  - rewrite (dead_not_nullable _ Hd). simpl. by apply IH, dead_deriv.
Qed.

Lemma re_match_app (p s : string) (r : regex) :
  prefix_nullable p r = false →
  re_match r (p +:+ s) = re_match (derivs p r) s.
Proof.
  revert r. induction p as [|c p IH]; intros r; cbn [prefix_nullable derivs];
    [done|].
  intros [Hn Hp]%orb_false_iff.
  change (String c p +:+ s) with (String c (p +:+ s)). cbn [re_match].
  rewrite Hn. by apply IH.
Qed.

(** A code that starts with a prefix after which nothing of the pattern is
    left is not excluded. *)
Lemma not_excluded_by_prefix (p s : string) :
  prefix_nullable p EXCLUSIONS_RE = false →
  dead (derivs p EXCLUSIONS_RE) = true →
  re_match EXCLUSIONS_RE (p +:+ s) = false.
Proof. intros Hp Hd. rewrite re_match_app by done. by apply re_match_dead. Qed.

Lemma contains_GENERIC_SUB_PARAGRAPHS (k : string) :
  contains k GENERIC_SUB_PARAGRAPHS = true ↔ k = "0601060U0" ∨ k = "0601060D0".
Proof.
  unfold contains, GENERIC_SUB_PARAGRAPHS. rewrite bool_decide_eq_true. split.
  - intros [v Hv]. apply lookup_insert_Some in Hv as [[<- _]|[_ Hv]]; [by left|].
    apply lookup_singleton_Some in Hv as [<- _]. by right.
  - intros [->| ->]; eexists; vm_compute; reflexivity.
Qed.

Lemma slice_0_9_app (c : string) :
  String.length c = 15 → c = slice 0 9 c +:+ slice 9 15 c.
Proof.
  intros Hlen. destruct (length_15_inv c Hlen)
    as (c1&c2&c3&c4&c5&c6&c7&c8&c9&c10&c11&c12&c13&c14&c15&->).
  reflexivity.
Qed.

(** X3: every code of 15 characters whose first nine characters are a key of
    [GENERIC_SUB_PARAGRAPHS] has a generic equivalent, as no exclusion starts
    with such a prefix; when the code ends in [A0] it is the synthetic code
    that [get_names_for_bnf_codes] names, the sub-paragraph followed by
    [AAA0A0]. *)
Theorem sub_paragraph_always_generic (c : string) :
  String.length c = 15 →
  contains (slice 0 9 c) GENERIC_SUB_PARAGRAPHS = true →
  generic_equivalent_for_bnf_code c
  = Some (slice 0 9 c +:+ "AA" +:+ slice 13 15 c +:+ slice 13 15 c)
  ∧ (slice 13 15 c = "A0" →
     generic_equivalent_for_bnf_code c = Some (slice 0 9 c +:+ "AAA0A0")).
Proof.
  intros Hlen Hsub.
  assert (re_match EXCLUSIONS_RE c = false) as Hm.
  { rewrite (slice_0_9_app c Hlen).
    apply contains_GENERIC_SUB_PARAGRAPHS in Hsub as [-> | ->];
      apply not_excluded_by_prefix; by vm_compute. }
  assert (generic_equivalent_for_bnf_code c
          = Some (slice 0 9 c +:+ "AA" +:+ slice 13 15 c +:+ slice 13 15 c)) as Hg.
  { unfold generic_equivalent_for_bnf_code. rewrite Hlen, Hm. simpl.
    by rewrite Hsub, orb_true_r. }
  split; [done|]. intros Hsuf. by rewrite Hg, Hsuf.
Qed.

Lemma sub_paragraph_always_generic_witness :
  generic_equivalent_for_bnf_code "0601060D0BBAAA0" = Some "0601060D0AAA0A0".
Proof.
  refine (proj2 (sub_paragraph_always_generic "0601060D0BBAAA0" _ _) _);
    by vm_compute.
Defined.

(** ** The equivalence merger: groups of pairs of different elements *)

Lemma two_elements {A : Type} (x y : A) (l : list A) :
  x ∈ l → y ∈ l → x ≠ y → 2 ≤ length l.
Proof.
  destruct l as [|a [|b l]]; simpl; intros Hx Hy Hne; [|exfalso|lia].
  - by apply elem_of_nil in Hx.
  - apply list_elem_of_singleton in Hx, Hy. congruence.
Qed.

Section merger_extras.
Context {K : Type} `{EqDecision K}.

(** X5: when no pair joins an element to itself, every group that
    [groups_from_pairs] yields has at least two elements. *)
Theorem groups_of_distinct_pairs (pairs : list (K * K)) (out : list (list K)) :
  (∀ a b, (a, b) ∈ pairs → a ≠ b) →
  groups_from_pairs pairs = Ok out →
  ∀ g, g ∈ out → 2 ≤ length g.
Proof.
  intros Hne Hout g Hg.
  destruct (groups_from_pairs_components_of pairs) as (out' & Hout' & Hcomp & _).
  rewrite Hout in Hout'. injection Hout' as <-.
  destruct (Hcomp g Hg) as [Hnil Hcls].
  destruct g as [|x g0]; [done|].
  destruct (Hcls x ltac:(left)) as [[y Hxy] Hconn].
  apply (two_elements x y); [left| |].
  - apply Hconn. destruct Hxy as [?|?];
      [by apply edge_connected|symmetry; by apply edge_connected].
  - destruct Hxy as [Hxy|Hxy]; apply Hne in Hxy; congruence.
Qed.
End merger_extras.

Lemma groups_of_distinct_pairs_witness : 2 ≤ length [5; 6].
Proof.
  apply (groups_of_distinct_pairs [(1, 2); (3, 4); (5, 6); (1, 3)]
           [[1; 2; 3; 4]; [5; 6]]).
  - intros a b Hin. repeat (apply elem_of_cons in Hin as [[= -> ->]|Hin]); try done.
    by apply elem_of_nil in Hin.
  - vm_compute. reflexivity.
  - right. left.
Defined.

(** ** The swap table loader: the entries of the two maps *)

Lemma vertex_code_pairs_of data m :
  vertex (code_pairs_of data) m ↔
  ∃ row, row ∈ data ∧ accepted row
         ∧ (strip (Code row) = m ∨ strip (Alternative_code row) = m).
Proof.
  unfold vertex, code_pairs_of. setoid_rewrite list_elem_of_fmap.
  setoid_rewrite list_elem_of_filter. unfold pair_of. split.
  - intros [y [(row & [= -> ->] & Hacc & Hin)|(row & [= -> ->] & Hacc & Hin)]];
      exists row; auto.
  - intros (row & Hin & Hacc & [<-|<-]).
    + exists (strip (Alternative_code row)). left. by exists row.
    + exists (strip (Code row)). right. by exists row.
Qed.

Lemma vertex_self_generic data m :
  Forall (fun row => accepted row → well_formed row) data →
  vertex (code_pairs_of data) m → self_generic m.
Proof.
  intros Hall (row & Hin & Hacc & Hm)%vertex_code_pairs_of.
  eapply Forall_forall in Hall; [|done].
  destruct (Hall Hacc) as (Hc & Ha & _). by destruct Hm as [<-|<-].
Qed.

(** Every vertex has an entry in the swaps map. *)
Lemma swaps_vertex data swaps descs m :
  get_formulation_swaps data = Ok (swaps, descs) →
  vertex (code_pairs_of data) m → ∃ p, swaps !! m = Some p.
Proof.
  intros Hget Hv. pose proof (get_formulation_swaps_Ok _ _ _ Hget) as Hall.
  destruct (get_formulation_swaps_spec data Hall)
    as (out & swaps' & descs' & (_ & Hcov & _) & _ & Hget' & Hgroups & _).
  rewrite Hget in Hget'. injection Hget' as <- <-.
  destruct (Hcov m Hv) as (codes & Hcodes & Hm).
  destruct (Hgroups _ Hcodes) as (p & _ & Hsw & _). eauto.
Qed.

(** X6: the keys of the swaps map are exactly the codes and alternative codes
    of the accepted rows; every key and every value is a generic code that
    classifies to itself, and a value is never larger than its key. *)
Theorem swaps_entries data swaps descs :
  get_formulation_swaps data = Ok (swaps, descs) →
  (∀ m, is_Some (swaps !! m) ↔
        ∃ row, row ∈ data ∧ accepted row
               ∧ (strip (Code row) = m ∨ strip (Alternative_code row) = m))
  ∧ (∀ m p, swaps !! m = Some p →
       self_generic m ∧ self_generic p ∧ String.le p m).
Proof.
  intros Hget. pose proof (get_formulation_swaps_Ok _ _ _ Hget) as Hall. split.
  - intros m. rewrite <-vertex_code_pairs_of. split.
    + intros [p Hp]. apply (swaps_primary _ _ _ _ _ Hget) in Hp. apply Hp.
    + intros Hv. destruct (swaps_vertex _ _ _ _ Hget Hv) as [p Hp]. by exists p.
  - intros m p Hp.
    pose proof (proj1 (swaps_primary _ _ _ _ _ Hget) Hp) as (Hv & Hc & Hle).
    split_and!.
    + by eapply vertex_self_generic.
    + destruct (connected_vertex _ _ _ Hc) as [<-|[_ Hvp]];
        by eapply vertex_self_generic.
    + by apply Hle.
Qed.

Lemma swaps_entries_witness :
  self_generic "040702040AAAHAH" ∧ self_generic "040702040AAACAC"
  ∧ String.le "040702040AAACAC" "040702040AAAHAH".
Proof.
  refine (proj2 (swaps_entries [tramadol_row]
            {[ "040702040AAACAC" := "040702040AAACAC";
               "040702040AAAHAH" := "040702040AAACAC" ]}
            {[ "040702040AAACAC" := "Cap / Tab" ]} _)
          "040702040AAAHAH" "040702040AAACAC" _);
    vm_compute; reflexivity.
Defined.

(** X7: codes connected through accepted rows are remapped to the same code;
    in particular the code and the alternative code of every accepted row have
    the same entry in the swaps map. *)
Theorem swaps_respect_rows data swaps descs :
  get_formulation_swaps data = Ok (swaps, descs) →
  (∀ m m', connected (code_pairs_of data) m m' → remap swaps m = remap swaps m')
  ∧ (∀ row, row ∈ data → accepted row →
       ∃ p, swaps !! strip (Code row) = Some p
            ∧ swaps !! strip (Alternative_code row) = Some p).
Proof.
  intros Hget.
  assert (∀ m m' p, connected (code_pairs_of data) m m' →
            swaps !! m = Some p → swaps !! m' = Some p) as Hconn.
  { intros m m' p Hc Hp.
    pose proof (proj1 (swaps_primary _ _ _ _ _ Hget) Hp) as (Hv & Hcp & Hle).
    apply (swaps_primary _ _ _ _ _ Hget). split_and!.
    - by destruct (connected_vertex _ _ _ Hc) as [<-|[_ ?]].
    - etrans; [by symmetry|done].
    - intros y Hy. apply Hle. etrans; [exact Hc|exact Hy]. }
  split.
  - intros m m' Hc. unfold remap.
    destruct (swaps !! m) as [p|] eqn:Hm.
    + by rewrite (Hconn _ _ _ Hc Hm).
    + destruct (swaps !! m') as [p'|] eqn:Hm'.
      * symmetry in Hc. rewrite (Hconn _ _ _ Hc Hm') in Hm. done.
      * simpl. destruct (connected_vertex _ _ _ Hc) as [?|[Hv _]]; [done|].
        destruct (swaps_vertex _ _ _ _ Hget Hv) as [p Hp]. congruence.
  - intros row Hin Hacc.
    assert ((strip (Code row), strip (Alternative_code row)) ∈ code_pairs_of data)
      as Hpair.
    { apply list_elem_of_fmap. exists row. split; [done|].
      by apply list_elem_of_filter. }
    destruct (swaps_vertex _ _ _ (strip (Code row)) Hget) as [p Hp].
    { eexists. left. done. }
    exists p. split; [done|]. eapply Hconn; [|done]. by apply edge_connected.
Qed.

Lemma swaps_respect_rows_witness :
  remap {[ "040702040AAACAC" := "040702040AAACAC";
           "040702040AAAHAH" := "040702040AAACAC" ]} "040702040AAAHAH"
  = remap {[ "040702040AAACAC" := "040702040AAACAC";
             "040702040AAAHAH" := "040702040AAACAC" ]} "040702040AAACAC".
Proof.
  refine (proj1 (swaps_respect_rows [tramadol_row] _
                   {[ "040702040AAACAC" := "Cap / Tab" ]} _) _ _ _).
  - vm_compute. reflexivity.
  - symmetry. apply edge_connected. left.
Defined.

Lemma add_groups_descriptions (gs : list (list string * list string)) sw ds sw' ds' q d :
  for_each add_group (sw, ds) gs = Ok (sw', ds') →
  ds' !! q = Some d →
  ds !! q = Some d
  ∨ ∃ codes forms, (codes, forms) ∈ gs ∧ head (sorted codes) = Some q
                   ∧ description forms = Some d.
Proof.
  revert sw ds. induction gs as [|[codes forms] gs IH]; intros sw ds; cbn [for_each].
  - intros [= <- <-] Hq. by left.
  - unfold add_group at 1.
    destruct (sorted codes) as [|p rest] eqn:Hs; [done|]. cbn [bind].
    intros Hrun Hq. destruct (IH _ _ Hrun Hq) as [Hd|(codes' & forms' & Hin & ? & ?)].
    + unfold description. destruct (1 <? length forms)%nat eqn:Hlen; [|by left].
      destruct (decide (p = q)) as [->|Hne].
      * rewrite lookup_insert_eq in Hd. right. exists codes, forms.
        split_and!; [left|by rewrite Hs|]. unfold description. by rewrite Hlen.
      * rewrite lookup_insert_ne in Hd by done. by left.
    + right. exists codes', forms'. split_and!; [by right|done..].
Qed.

(** X8: every key of the descriptions map is a primary code, mapped to itself
    by the swaps map, and its description is the sorted labels, two at least,
    of a group the loader yields, joined by [ / ]. *)
Theorem descriptions_entries data groups swaps descs q d :
  read_formulation_swaps_file data = Ok groups →
  get_formulation_swaps data = Ok (swaps, descs) →
  descs !! q = Some d →
  swaps !! q = Some q
  ∧ ∃ codes forms,
      (codes, forms) ∈ groups ∧ smallest codes q
      ∧ 2 ≤ length forms ∧ d = join " / " (sorted forms).
Proof.
  intros Hread Hget Hq.
  pose proof (get_formulation_swaps_Ok _ _ _ Hget) as Hall.
  destruct (get_formulation_swaps_spec data Hall)
    as (out & swaps' & descs' & _ & Hread' & Hget' & Hgroups & _).
  rewrite Hget in Hget'. injection Hget' as <- <-.
  rewrite Hread in Hread'. injection Hread' as ->.
  unfold get_formulation_swaps in Hget. rewrite Hread in Hget. cbn [bind] in Hget.
  destruct (add_groups_descriptions _ _ _ _ _ _ _ Hget Hq)
    as [Hempty|(codes & forms & Hin & Hhead & Hdesc)]; [by rewrite lookup_empty in Hempty|].
  assert (smallest codes q) as Hsm.
  { destruct (sorted codes) as [|p rest] eqn:Hs; [done|].
    injection Hhead as ->. by eapply sorted_head. }
  split.
  - apply list_elem_of_fmap in Hin as (codes' & [= -> ->] & Hin).
    destruct (Hgroups _ Hin) as (p & Hp & Hsw & _).
    assert (p = q) as -> by (by eapply smallest_unique).
    apply Hsw, Hsm.
  - exists codes, forms. split_and!; [done..| |].
    + unfold description in Hdesc.
      destruct (1 <? length forms)%nat eqn:Hlen; [|done].
      apply Nat.ltb_lt in Hlen. lia.
    + unfold description in Hdesc.
      destruct (1 <? length forms)%nat; [|done]. by injection Hdesc.
Qed.

Lemma descriptions_entries_witness :
  ({[ "040702040AAACAC" := "040702040AAACAC";
      "040702040AAAHAH" := "040702040AAACAC" ]} : gmap string string)
    !! "040702040AAACAC" = Some "040702040AAACAC"
  ∧ ∃ codes forms,
      (codes, forms) ∈ [(["040702040AAACAC"; "040702040AAAHAH"], ["Tab"; "Cap"])]
      ∧ smallest codes "040702040AAACAC"
      ∧ 2 ≤ length forms ∧ "Cap / Tab" = join " / " (sorted forms).
Proof.
  apply (descriptions_entries [tramadol_row] _ _
           {[ "040702040AAACAC" := "Cap / Tab" ]});
    vm_compute; reflexivity.
Defined.

(** ** The substitution set builder: names *)

Lemma string_app_inj_r (s s' t : string) : s +:+ t = s' +:+ t → s = s'.
Proof.
  revert s'. induction s as [|c s IH]; intros [|c' s'] Heq.
  - done.
  - apply (f_equal String.length) in Heq.
    rewrite string_app_empty_l, string_app_cons in Heq. cbn [String.length] in Heq.
    rewrite string_length_app in Heq. lia.
  - apply (f_equal String.length) in Heq.
    rewrite string_app_empty_l, string_app_cons in Heq. cbn [String.length] in Heq.
    rewrite string_length_app in Heq. lia.
  - rewrite !string_app_cons in Heq. injection Heq as -> Heq.
    f_equal. by apply IH.
Qed.

(** The names after the sub-paragraph names are added: a synthetic code has
    the name of its sub-paragraph, every other code the name the resolver
    gave. *)
Lemma get_names_lookup names bnf_codes :
  (∀ sub_para nm, GENERIC_SUB_PARAGRAPHS !! sub_para = Some nm →
     get_names_for_bnf_codes names bnf_codes !! (sub_para +:+ "AAA0A0") = Some nm)
  ∧ (∀ k, (∀ sub_para, is_Some (GENERIC_SUB_PARAGRAPHS !! sub_para) →
             k ≠ sub_para +:+ "AAA0A0") →
       get_names_for_bnf_codes names bnf_codes !! k = names bnf_codes !! k).
Proof.
  unfold get_names_for_bnf_codes.
  apply (map_fold_weak_ind
    (fun (r m : gmap string string) =>
       (∀ sub_para nm, m !! sub_para = Some nm →
          r !! (sub_para +:+ "AAA0A0") = Some nm)
       ∧ (∀ k, (∀ sub_para, is_Some (m !! sub_para) → k ≠ sub_para +:+ "AAA0A0") →
            r !! k = names bnf_codes !! k))).
  - split; [intros ??; by rewrite lookup_empty|done].
  - intros i x m r Hi [IH1 IH2]. split.
    + intros sub_para nm. rewrite lookup_insert.
      case_decide as Hsp; subst.
      * intros [= ->]. by rewrite lookup_insert_eq.
      * intros Hm. rewrite lookup_insert_ne; [by apply IH1|].
        intros Heq. by apply string_app_inj_r in Heq.
    + intros k Hk. rewrite lookup_insert_ne.
      * apply IH2. intros sub_para Hsp. apply Hk.
        rewrite lookup_insert. case_decide; [by eexists|done].
      * intros <-. eapply Hk; [|done]. rewrite lookup_insert_eq. by eexists.
Qed.

(** X9: every set the builder returns has a name: the name of the
    sub-paragraph when its id is a key of [GENERIC_SUB_PARAGRAPHS] followed by
    [AAA0A0], whatever the name lookup returned for it, and otherwise what the
    name lookup returned for its id, or [unknown]. *)
Theorem substitution_set_names names data bnf_codes sets swaps descs s :
  get_formulation_swaps data = Ok (swaps, descs) →
  get_substitution_sets_from_bnf_codes names data bnf_codes = Ok sets →
  s ∈ sets →
  ∃ nm, name s = Some nm
    ∧ (∀ sub_para sub_name,
         GENERIC_SUB_PARAGRAPHS !! sub_para = Some sub_name →
         id s = sub_para +:+ "AAA0A0" → nm = sub_name)
    ∧ ((∀ sub_para, is_Some (GENERIC_SUB_PARAGRAPHS !! sub_para) →
          id s ≠ sub_para +:+ "AAA0A0") →
       nm = default "unknown"
              (names (odict_keys (foldl (add_bnf_code swaps) [] bnf_codes))
               !! id s)).
Proof.
  intros Hget Hsets [_ Hs]%(builder_elem _ _ _ _ _ _ _ Hget Hsets).
  destruct (get_names_lookup names
              (odict_keys (foldl (add_bnf_code swaps) [] bnf_codes)))
    as [Hsub Hother].
  eexists. split; [by rewrite Hs at 1|]. split.
  - intros sub_para sub_name Hsp ->. by rewrite (Hsub _ _ Hsp).
  - intros Hk. by rewrite (Hother _ Hk).
Qed.

Lemma substitution_set_names_witness :
  ∃ nm, Some "Glucose Blood Testing Reagents" = Some nm
    ∧ (∀ sub_para sub_name,
         GENERIC_SUB_PARAGRAPHS !! sub_para = Some sub_name →
         "0601060D0AAA0A0" = sub_para +:+ "AAA0A0" → nm = sub_name)
    ∧ ((∀ sub_para, is_Some (GENERIC_SUB_PARAGRAPHS !! sub_para) →
          "0601060D0AAA0A0" ≠ sub_para +:+ "AAA0A0") →
       nm = default "unknown"
              ((fun _ : list string => (∅ : gmap string string))
                 (odict_keys (foldl (add_bnf_code ∅) []
                    ["0601060D0BBAAA0"; "0601060D0BCAAA0"]))
               !! "0601060D0AAA0A0")).
Proof.
  apply (substitution_set_names (fun _ => ∅) []
           ["0601060D0BBAAA0"; "0601060D0BCAAA0"]
           [ {| id := "0601060D0AAA0A0";
                name := Some "Glucose Blood Testing Reagents";
                presentations := ["0601060D0BBAAA0"; "0601060D0BCAAA0"];
                formulation_swaps := None |} ] ∅ ∅
           {| id := "0601060D0AAA0A0";
              name := Some "Glucose Blood Testing Reagents";
              presentations := ["0601060D0BBAAA0"; "0601060D0BCAAA0"];
              formulation_swaps := None |}).
  - vm_compute. reflexivity.
  - vm_compute. reflexivity.
  - left.
Defined.

(** ** The substitution set builder: which codes are in which set *)

Lemma elem_of_filed_under swaps k bnf_codes c :
  c ∈ filed_under swaps k bnf_codes ↔ grouping_key swaps c = Some k ∧ c ∈ bnf_codes.
Proof.
  unfold filed_under.
  apply (list_elem_of_filter (fun c => grouping_key swaps c = Some k)).
Qed.

Lemma grouping_key_Some swaps c k :
  grouping_key swaps c = Some k ↔
  ∃ g, generic_equivalent_for_bnf_code c = Some g ∧ k = remap swaps g.
Proof.
  unfold grouping_key. destruct (generic_equivalent_for_bnf_code c) as [g|] eqn:Hg.
  - case_bool_decide as Hempty.
    + subst. apply generic_equivalent_Some in Hg as (_ & _ & _ & Hg).
      symmetry in Hg. apply string_app_eq_empty in Hg as [_ Hg].
      by apply string_app_eq_empty in Hg as [? _].
    + split; [intros [= <-]; eauto|]. by intros (g' & [= <-] & ->).
  - split; [done|]. by intros (? & ? & _).
Qed.

Lemma builder_presentations names data bnf_codes sets swaps descs s c :
  get_formulation_swaps data = Ok (swaps, descs) →
  get_substitution_sets_from_bnf_codes names data bnf_codes = Ok sets →
  s ∈ sets →
  c ∈ presentations s ↔ c ∈ bnf_codes ∧ grouping_key swaps c = Some (id s).
Proof.
  intros Hget Hsets [_ Hs]%(builder_elem _ _ _ _ _ _ _ Hget Hsets).
  rewrite Hs at 1. simpl. rewrite sorted_Permutation, elem_of_filed_under. tauto.
Qed.

(** X10: a presentation of a set is one of the input codes, it has a generic
    equivalent, and the id of the set is that generic equivalent remapped
    through the swaps map; so a code without a generic equivalent (of another
    length, or excluded) is in no set. *)
Theorem presentations_have_the_key names data bnf_codes sets swaps descs s c :
  get_formulation_swaps data = Ok (swaps, descs) →
  get_substitution_sets_from_bnf_codes names data bnf_codes = Ok sets →
  s ∈ sets → c ∈ presentations s →
  c ∈ bnf_codes
  ∧ ∃ g, generic_equivalent_for_bnf_code c = Some g ∧ id s = remap swaps g.
Proof.
  intros Hget Hsets Hs Hc.
  apply (builder_presentations _ _ _ _ _ _ _ _ Hget Hsets Hs) in Hc as [Hin Hkey].
  split; [done|]. by apply grouping_key_Some.
Qed.

Lemma presentations_have_the_key_witness :
  "040702040AAAHAH" ∈ ["040702040AAACAC"; "040702040AAAHAH"]
  ∧ ∃ g, generic_equivalent_for_bnf_code "040702040AAAHAH" = Some g
         ∧ "040702040AAACAC"
           = remap {[ "040702040AAACAC" := "040702040AAACAC";
                      "040702040AAAHAH" := "040702040AAACAC" ]} g.
Proof.
  apply (presentations_have_the_key (fun _ => ∅) [tramadol_row]
           ["040702040AAACAC"; "040702040AAAHAH"]
           [ {| id := "040702040AAACAC"; name := Some "unknown";
                presentations := ["040702040AAACAC"; "040702040AAAHAH"];
                formulation_swaps := Some "Cap / Tab" |} ]
           _ {[ "040702040AAACAC" := "Cap / Tab" ]}
           {| id := "040702040AAACAC"; name := Some "unknown";
              presentations := ["040702040AAACAC"; "040702040AAAHAH"];
              formulation_swaps := Some "Cap / Tab" |}).
  - vm_compute. reflexivity.
  - vm_compute. reflexivity.
  - left.
  - right. left.
Defined.

Lemma builder_ids names data bnf_codes sets swaps descs :
  get_formulation_swaps data = Ok (swaps, descs) →
  get_substitution_sets_from_bnf_codes names data bnf_codes = Ok sets →
  NoDup (id <$> sets).
Proof.
  intros Hget. rewrite (builder_unfold _ _ _ _ _ Hget). cbv zeta. intros [= <-].
  rewrite <-list_fmap_compose.
  set (ps := foldl (add_bnf_code swaps) [] bnf_codes).
  erewrite (list_fmap_ext _ fst); [|by intros ? [??]].
  eapply sublist_NoDup; [|apply fmap_sublist, sublist_filter].
  apply presentation_sets_NoDup. constructor.
Qed.

Lemma builder_same_id names data bnf_codes sets swaps descs s s' :
  get_formulation_swaps data = Ok (swaps, descs) →
  get_substitution_sets_from_bnf_codes names data bnf_codes = Ok sets →
  s ∈ sets → s' ∈ sets → id s = id s' → s = s'.
Proof.
  intros Hget Hsets [_ Hs]%(builder_elem _ _ _ _ _ _ _ Hget Hsets)
    [_ Hs']%(builder_elem _ _ _ _ _ _ _ Hget Hsets) Hid.
  rewrite Hs, Hs'. by rewrite Hid.
Qed.

(** X11: the sets the builder returns have different ids, and no code is a
    presentation of two of them. *)
Theorem substitution_sets_disjoint names data bnf_codes sets :
  get_substitution_sets_from_bnf_codes names data bnf_codes = Ok sets →
  NoDup (id <$> sets)
  ∧ ∀ s s' c, s ∈ sets → s' ∈ sets →
      c ∈ presentations s → c ∈ presentations s' → s = s'.
Proof.
  intros Hsets.
  assert (∃ swaps descs, get_formulation_swaps data = Ok (swaps, descs))
    as (swaps & descs & Hget).
  { unfold get_substitution_sets_from_bnf_codes in Hsets.
    destruct (get_formulation_swaps data) as [[swaps descs]|]; [eauto|done]. }
  split; [by eapply builder_ids|].
  intros s s' c Hs Hs' Hc Hc'.
  apply (builder_presentations _ _ _ _ _ _ _ _ Hget Hsets Hs) in Hc as [_ Hk].
  apply (builder_presentations _ _ _ _ _ _ _ _ Hget Hsets Hs') in Hc' as [_ Hk'].
  eapply builder_same_id; [done..|]. congruence.
Qed.

Lemma substitution_sets_disjoint_witness :
  NoDup (id <$> [ {| id := "040702040AAACAC"; name := Some "unknown";
                     presentations := ["040702040AAACAC"; "040702040AAAHAH"];
                     formulation_swaps := Some "Cap / Tab" |};
                  {| id := "040702040AAAEAE"; name := Some "unknown";
                     presentations := ["040702040AAAEAE"; "040702040AAAJAJ";
                                       "040702040BBAEAE"];
                     formulation_swaps := Some "Cap / Tab" |};
                  {| id := "0407020B0AAACAC"; name := Some "unknown";
                     presentations := ["0407020B0AAACAC"; "0407020B0BBACAC"];
                     formulation_swaps := None |} ])
  ∧ ∀ s s' c,
      s ∈ [ {| id := "040702040AAACAC"; name := Some "unknown";
               presentations := ["040702040AAACAC"; "040702040AAAHAH"];
               formulation_swaps := Some "Cap / Tab" |};
            {| id := "040702040AAAEAE"; name := Some "unknown";
               presentations := ["040702040AAAEAE"; "040702040AAAJAJ";
                                 "040702040BBAEAE"];
               formulation_swaps := Some "Cap / Tab" |};
            {| id := "0407020B0AAACAC"; name := Some "unknown";
               presentations := ["0407020B0AAACAC"; "0407020B0BBACAC"];
               formulation_swaps := None |} ] →
      s' ∈ [ {| id := "040702040AAACAC"; name := Some "unknown";
                presentations := ["040702040AAACAC"; "040702040AAAHAH"];
                formulation_swaps := Some "Cap / Tab" |};
             {| id := "040702040AAAEAE"; name := Some "unknown";
                presentations := ["040702040AAAEAE"; "040702040AAAJAJ";
                                  "040702040BBAEAE"];
                formulation_swaps := Some "Cap / Tab" |};
             {| id := "0407020B0AAACAC"; name := Some "unknown";
                presentations := ["0407020B0AAACAC"; "0407020B0BBACAC"];
                formulation_swaps := None |} ] →
      c ∈ presentations s → c ∈ presentations s' → s = s'.
Proof.
  apply (substitution_sets_disjoint (fun _ => ∅)
           [tramadol_row; tramadol_200_row]
           ["040702040AAACAC"; "040702040AAAEAE"; "0407020B0BBACAC";
            "040702040AAAHAH"; "040702040BBAEAE"; "0407020B0AAACAC";
            "040702040AAAJAJ"; "0407020B0BBAAA0"]).
  vm_compute. reflexivity.
Defined.

(** X12: two different input codes whose generic equivalents are equal, or
    connected through accepted rows of the swaps file, are presentations of
    one set, whose id is their remapped generic equivalent. *)
Theorem equivalent_codes_share_a_set names data bnf_codes sets swaps descs
    c1 c2 g1 g2 :
  get_formulation_swaps data = Ok (swaps, descs) →
  get_substitution_sets_from_bnf_codes names data bnf_codes = Ok sets →
  c1 ∈ bnf_codes → c2 ∈ bnf_codes → c1 ≠ c2 →
  generic_equivalent_for_bnf_code c1 = Some g1 →
  generic_equivalent_for_bnf_code c2 = Some g2 →
  connected (code_pairs_of data) g1 g2 →
  ∃ s, s ∈ sets ∧ id s = remap swaps g1
       ∧ c1 ∈ presentations s ∧ c2 ∈ presentations s.
Proof.
  intros Hget Hsets Hc1 Hc2 Hne Hg1 Hg2 Hconn.
  assert (remap swaps g1 = remap swaps g2) as Hremap.
  { unfold remap.
    assert (∀ m m' p, connected (code_pairs_of data) m m' →
              swaps !! m = Some p → swaps !! m' = Some p) as Hmove.
    { intros m m' p Hc Hp.
      pose proof (proj1 (swaps_primary _ _ _ _ _ Hget) Hp) as (Hv & Hcp & Hle).
      apply (swaps_primary _ _ _ _ _ Hget). split_and!.
      - by destruct (connected_vertex _ _ _ Hc) as [<-|[_ ?]].
      - etrans; [by symmetry|done].
      - intros y Hy. apply Hle. etrans; [exact Hc|exact Hy]. }
    destruct (swaps !! g1) as [p|] eqn:H1.
    - by rewrite (Hmove _ _ _ Hconn H1).
    - destruct (swaps !! g2) as [p'|] eqn:H2.
      + symmetry in Hconn. rewrite (Hmove _ _ _ Hconn H2) in H1. done.
      + simpl. destruct (connected_vertex _ _ _ Hconn) as [?|[Hv _]]; [done|].
        destruct (swaps_vertex _ _ _ _ Hget Hv) as [p Hp]. congruence. }
  set (k := remap swaps g1).
  assert (grouping_key swaps c1 = Some k) as Hk1.
  { apply grouping_key_Some. eauto. }
  assert (grouping_key swaps c2 = Some k) as Hk2.
  { apply grouping_key_Some. exists g2. by rewrite <-Hremap. }
  set (s := {| id := k;
               name := Some (default "unknown"
                         (get_names_for_bnf_codes names
                            (odict_keys (foldl (add_bnf_code swaps) [] bnf_codes))
                          !! k));
               presentations := sorted (filed_under swaps k bnf_codes);
               formulation_swaps := descs !! k |}).
  assert (s ∈ sets) as Hs.
  { apply (builder_elem _ _ _ _ _ _ _ Hget Hsets). split; [|done]. simpl.
    apply (two_elements c1 c2); [by apply elem_of_filed_under..|done]. }
  exists s. split_and!; [done..| |];
    by apply (builder_presentations _ _ _ _ _ _ _ _ Hget Hsets Hs).
Qed.

Lemma equivalent_codes_share_a_set_witness :
  ∃ s, s ∈ [ {| id := "040702040AAACAC"; name := Some "unknown";
                presentations := ["040702040AAACAC"; "040702040BBAHAH"];
                formulation_swaps := Some "Cap / Tab" |} ]
       ∧ id s = remap {[ "040702040AAACAC" := "040702040AAACAC";
                         "040702040AAAHAH" := "040702040AAACAC" ]}
                  "040702040AAACAC"
       ∧ "040702040AAACAC" ∈ presentations s
       ∧ "040702040BBAHAH" ∈ presentations s.
Proof.
  apply (equivalent_codes_share_a_set (fun _ => ∅) [tramadol_row]
           ["040702040AAACAC"; "040702040BBAHAH"] _ _
           {[ "040702040AAACAC" := "Cap / Tab" ]}
           "040702040AAACAC" "040702040BBAHAH"
           "040702040AAACAC" "040702040AAAHAH").
  - vm_compute. reflexivity.
  - vm_compute. reflexivity.
  - left.
  - right. left.
  - discriminate.
  - vm_compute. reflexivity.
  - vm_compute. reflexivity.
  - apply edge_connected. left.
Defined.

(** X13: an input code with a generic equivalent is in a set exactly when
    at least two entries of the input are filed under its key; a code alone
    under its key is in no set. *)
Theorem code_in_a_set_iff names data bnf_codes sets swaps descs c k :
  get_formulation_swaps data = Ok (swaps, descs) →
  get_substitution_sets_from_bnf_codes names data bnf_codes = Ok sets →
  c ∈ bnf_codes → grouping_key swaps c = Some k →
  (∃ s, s ∈ sets ∧ c ∈ presentations s)
  ↔ 2 ≤ length (filed_under swaps k bnf_codes).
Proof.
  intros Hget Hsets Hin Hk. split.
  - intros (s & Hs & Hc).
    apply (builder_presentations _ _ _ _ _ _ _ _ Hget Hsets Hs) in Hc as [_ Hk'].
    assert (id s = k) as <- by congruence.
    apply (builder_elem _ _ _ _ _ _ _ Hget Hsets) in Hs as [Hlen _]. lia.
  - intros Hlen.
    set (s := {| id := k;
                 name := Some (default "unknown"
                           (get_names_for_bnf_codes names
                              (odict_keys (foldl (add_bnf_code swaps) [] bnf_codes))
                            !! k));
                 presentations := sorted (filed_under swaps k bnf_codes);
                 formulation_swaps := descs !! k |}).
    assert (s ∈ sets) as Hs.
    { apply (builder_elem _ _ _ _ _ _ _ Hget Hsets). split; [simpl; lia|done]. }
    exists s. split; [done|].
    by apply (builder_presentations _ _ _ _ _ _ _ _ Hget Hsets Hs).
Qed.

Lemma code_in_a_set_iff_witness :
  (∃ s, s ∈ [ {| id := "040702040AAACAC"; name := Some "unknown";
                 presentations := ["040702040AAACAC"; "040702040BBAHAH"];
                 formulation_swaps := Some "Cap / Tab" |} ]
        ∧ "040702040BBAHAH" ∈ presentations s)
  ↔ 2 ≤ length (filed_under {[ "040702040AAACAC" := "040702040AAACAC";
                               "040702040AAAHAH" := "040702040AAACAC" ]}
                  "040702040AAACAC"
                  ["040702040BBAHAH"; "0407020B0BBACAC"; "040702040AAACAC"]).
Proof.
  apply (code_in_a_set_iff (fun _ => ∅) [tramadol_row]
           ["040702040BBAHAH"; "0407020B0BBACAC"; "040702040AAACAC"]
           _ _ {[ "040702040AAACAC" := "Cap / Tab" ]}).
  - vm_compute. reflexivity.
  - vm_compute. reflexivity.
  - left.
  - vm_compute. reflexivity.
Defined.

(** ** The substitution set builder: when it raises *)

(** X14: for a swaps file read into rows that carry the five columns, the
    builder raises [AssertionError], whatever the input codes and the name
    lookup, when an accepted row fails an assertion; when no accepted row
    does, it returns a list of sets: neither [group[0]] in
    [groups_from_pairs] nor [sorted(codes)[0]] in [get_formulation_swaps]
    raises [IndexError]. *)
Theorem builder_raises_iff names data bnf_codes :
  (Exists (fun row => accepted row ∧ ¬ well_formed row) data →
   get_substitution_sets_from_bnf_codes names data bnf_codes = Raise AssertionError)
  ∧ (Forall (fun row => accepted row → well_formed row) data →
     ∃ sets, get_substitution_sets_from_bnf_codes names data bnf_codes = Ok sets).
Proof.
  split.
  - intros Hex. unfold get_substitution_sets_from_bnf_codes, get_formulation_swaps.
    by rewrite read_file_fail.
  - intros Hall.
    destruct (get_formulation_swaps_spec data Hall)
      as (out & swaps & descs & _ & _ & Hget & _).
    eexists. by rewrite (builder_unfold _ _ _ _ _ Hget).
Qed.

(** ** The substitution set builder: the order of the input codes *)

(** X15: reordering the input codes gives as many sets, and for every set one
    with the same id, the same presentations and the same description. *)
Theorem builder_order_independent names data bnf_codes bnf_codes' sets :
  bnf_codes' ≡ₚ bnf_codes →
  get_substitution_sets_from_bnf_codes names data bnf_codes = Ok sets →
  ∃ sets',
    get_substitution_sets_from_bnf_codes names data bnf_codes' = Ok sets'
    ∧ length sets' = length sets
    ∧ ∀ s, s ∈ sets →
        ∃ s', s' ∈ sets' ∧ id s' = id s
              ∧ presentations s' = presentations s
              ∧ formulation_swaps s' = formulation_swaps s.
Proof.
  intros Hperm Hsets.
  assert (∃ swaps descs, get_formulation_swaps data = Ok (swaps, descs))
    as (swaps & descs & Hget).
  { unfold get_substitution_sets_from_bnf_codes in Hsets.
    destruct (get_formulation_swaps data) as [[swaps descs]|]; [eauto|done]. }
  pose proof (builder_unfold names data bnf_codes' _ _ Hget) as Hsets'.
  cbv zeta in Hsets'.
  match type of Hsets' with _ = Ok ?l => set (sets' := l) in * end.
  exists sets'. split; [exact Hsets'|].
  assert (∀ k, filed_under swaps k bnf_codes' ≡ₚ filed_under swaps k bnf_codes)
    as Hfiled.
  { intros k. unfold filed_under. by rewrite Hperm. }
  pose (mk := fun (codes : list string) (k : string) =>
    {| id := k;
       name := Some (default "unknown"
                 (get_names_for_bnf_codes names
                    (odict_keys (foldl (add_bnf_code swaps) [] codes)) !! k));
       presentations := sorted (filed_under swaps k codes);
       formulation_swaps := descs !! k |}).
  assert (∀ s, s ∈ sets ↔
               1 < length (filed_under swaps (id s) bnf_codes)
               ∧ s = mk bnf_codes (id s)) as Helem
    by (intros s; apply (builder_elem _ _ _ _ _ _ _ Hget Hsets)).
  assert (∀ s, s ∈ sets' ↔
               1 < length (filed_under swaps (id s) bnf_codes')
               ∧ s = mk bnf_codes' (id s)) as Helem'
    by (intros s; apply (builder_elem _ _ _ _ _ _ _ Hget Hsets')).
  assert (∀ s, s ∈ sets → mk bnf_codes' (id s) ∈ sets') as Hmove.
  { intros s [Hlen _]%Helem. apply Helem'. split; [|done].
    cbn [mk id]. by rewrite Hfiled. }
  split.
  - (* the ids of both outputs are the same set, without repetition *)
    rewrite <-(length_fmap id sets'), <-(length_fmap id sets).
    apply Permutation_length, NoDup_Permutation.
    + by eapply builder_ids.
    + by eapply builder_ids.
    + intros k. rewrite !list_elem_of_fmap. split.
      * intros (s' & -> & [Hlen _]%Helem').
        exists (mk bnf_codes (id s')). split; [done|].
        apply Helem. split; [|done]. cbn [mk id]. by rewrite <-Hfiled.
      * intros (s & -> & Hs). exists (mk bnf_codes' (id s)).
        split; [done|by apply Hmove].
  - intros s Hs. exists (mk bnf_codes' (id s)).
    split_and!; [by apply Hmove|done| |].
    + apply Helem in Hs as [_ Hs]. rewrite Hs at 2.
      cbn [mk presentations]. by apply sorted_unique.
    + apply Helem in Hs as [_ Hs]. by rewrite Hs at 2.
Qed.

Lemma builder_order_independent_witness :
  ∃ sets',
    get_substitution_sets_from_bnf_codes (fun _ => ∅) [tramadol_row]
      ["040702040AAAHAH"; "040702040AAACAC"] = Ok sets'
    ∧ length sets' = 1
    ∧ ∀ s, s ∈ [ {| id := "040702040AAACAC"; name := Some "unknown";
                    presentations := ["040702040AAACAC"; "040702040AAAHAH"];
                    formulation_swaps := Some "Cap / Tab" |} ] →
        ∃ s', s' ∈ sets' ∧ id s' = id s
              ∧ presentations s' = presentations s
              ∧ formulation_swaps s' = formulation_swaps s.
Proof.
  refine (builder_order_independent (fun _ => ∅) [tramadol_row]
            ["040702040AAACAC"; "040702040AAAHAH"]
            ["040702040AAAHAH"; "040702040AAACAC"]
            [ {| id := "040702040AAACAC"; name := Some "unknown";
                 presentations := ["040702040AAACAC"; "040702040AAAHAH"];
                 formulation_swaps := Some "Cap / Tab" |} ] _ _).
  - apply Permutation_swap.
  - vm_compute. reflexivity.
Defined.

(** ** The table of all substitution sets *)

Lemma keyed_by_id_lookup (sets : list SubstitutionSet) (d0 : gmap string SubstitutionSet) :
  NoDup (id <$> sets) →
  (∀ s, s ∈ sets → foldl (fun d s => <[id s := s]> d) d0 sets !! id s = Some s)
  ∧ (∀ k, k ∉ id <$> sets →
       foldl (fun d s => <[id s := s]> d) d0 sets !! k = d0 !! k).
Proof.
  revert d0. induction sets as [|s sets IH]; intros d0 Hnd; cbn [foldl].
  - split; [|done]. intros s Hs. by apply elem_of_nil in Hs.
  - rewrite fmap_cons in Hnd. apply NoDup_cons in Hnd as [Hs Hnd].
    destruct (IH (<[id s := s]> d0) Hnd) as [IH1 IH2]. split.
    + intros s' [->|Hs']%elem_of_cons; [|by apply IH1].
      rewrite IH2 by done. by rewrite lookup_insert_eq.
    + intros k Hk. rewrite fmap_cons in Hk.
      apply not_elem_of_cons in Hk as [Hks Hk].
      rewrite IH2 by done. by rewrite lookup_insert_ne.
Qed.

(** X16: the table [get_substitution_sets] builds has exactly the sets of the
    builder, each under its id: no set is lost to another with the same
    key. *)
Theorem get_substitution_sets_lookup names data bnf_codes table :
  get_substitution_sets names data bnf_codes = Ok table →
  ∃ sets,
    get_substitution_sets_from_bnf_codes names data bnf_codes = Ok sets
    ∧ ∀ k s, table !! k = Some s ↔ s ∈ sets ∧ id s = k.
Proof.
  unfold get_substitution_sets. cbv zeta.
  destruct (get_substitution_sets_from_bnf_codes names data bnf_codes)
    as [sets|] eqn:Hsets; [|done]. cbn [bind]. intros [= <-].
  exists sets. split; [done|].
  assert (NoDup (id <$> sets)) as Hnd.
  { unfold get_substitution_sets_from_bnf_codes in Hsets.
    destruct (get_formulation_swaps data) as [[swaps descs]|] eqn:Hget; [|done].
    eapply builder_ids; [done|].
    unfold get_substitution_sets_from_bnf_codes. by rewrite Hget. }
  destruct (keyed_by_id_lookup sets ∅ Hnd) as [Hin Hout].
  intros k s. split.
  - intros Hk. destruct (decide (k ∈ id <$> sets)) as [Hkin|Hkout].
    + apply list_elem_of_fmap in Hkin as (s' & -> & Hs').
      rewrite (Hin _ Hs') in Hk. by injection Hk as <-.
    + rewrite (Hout _ Hkout), lookup_empty in Hk. done.
  - intros [Hs <-]. by apply Hin.
Qed.

Lemma get_substitution_sets_lookup_witness :
  ∃ sets,
    get_substitution_sets_from_bnf_codes (fun _ => ∅) [tramadol_row]
      ["040702040AAACAC"; "040702040AAAHAH"] = Ok sets
    ∧ ∀ k s,
        ({[ "040702040AAACAC" :=
              {| id := "040702040AAACAC"; name := Some "unknown";
                 presentations := ["040702040AAACAC"; "040702040AAAHAH"];
                 formulation_swaps := Some "Cap / Tab" |} ]}
           : gmap string SubstitutionSet) !! k = Some s
        ↔ s ∈ sets ∧ id s = k.
Proof.
  apply (get_substitution_sets_lookup (fun _ => ∅) [tramadol_row]
           ["040702040AAACAC"; "040702040AAAHAH"]).
  vm_compute. reflexivity.
Defined.
